(** * pyBPL: motor generation, image rendering and the relation model

    A shallow embedding of [pybpl/rendering.py] and [pybpl/relation.py].

    Number model.  Tensor entries are rationals ([Q]); every float is a
    rational.  Two models of the arithmetic are kept apart.  In the exact
    model every operation has its exact rational result, so the rounding
    of float32 operations is outside it; counts, shapes, bounds, flags and
    the algebra of sums are stated in it.  The float32 model (module
    [F32]) rounds the result of every operation on float32 tensors with a
    rounding [fl]; [F32.round] is the rounding to 24 significant bits,
    to the nearest with ties to even, with an exponent that is not
    bounded, so that overflow and NaN stay outside the model.  With the
    identity as rounding the float32 model is the exact one.  What
    depends on an equality of computed numbers or on the outcome of a
    comparison of computed numbers with a constant is stated in the
    float32 model.  Equality of tensor entries is [Qeq] ([==]).
    Log-probabilities may be infinite and are kept in an extended type.
    Library functions whose values are not rational operations (square
    root, the normal density and distribution function, the logarithm)
    and the functions of this repository that live in modules outside
    the two embedded files (splines, util.general) are section
    variables.  The checks that torch.distributions makes on the
    arguments of a distribution and of [log_prob] are in the module
    [Checked].

    Shape model.  A tensor whose last dimension is 2 is a list of points
    ([vec2]); an image is its shape with its row-major data, which is how
    [view(-1)] and [view(shape)] read it.  Python exceptions are values
    of [exn] carried by [result]. *)

From Stdlib Require Import QArith Qpower Qround Qminmax Qabs Lqa Lia ZArith
  List Permutation Sorted.
From stdpp Require Import base list gmap strings.

Open Scope Q_scope.

(** ** Exceptions and the result monad *)

Inductive exn : Set :=
| AssertionError
| IndexError
| AttributeError
| RuntimeError
| ValueError.

Inductive result (A : Type) : Type :=
| Ok (a : A)
| Raise (e : exn).

Arguments Ok {A} a.
Arguments Raise {A} e.

Definition bind {A B : Type} (r : result A) (k : A -> result B) : result B :=
  match r with
  | Ok a => k a
  | Raise e => Raise e
  end.

Notation "x <-- r ;; k" := (bind r (fun x => k))
  (at level 100, r at next level, right associativity).

(** [assert c] *)
Definition assert (c : bool) : result unit :=
  if c then Ok tt else Raise AssertionError.

(** [l[i]] for a non-negative index. *)
Definition index {A : Type} (l : list A) (i : nat) : result A :=
  match l !! i with
  | Some a => Ok a
  | None => Raise IndexError
  end.

(** [l[i]] for a Python integer: a negative index counts from the end. *)
Definition py_index {A : Type} (l : list A) (i : Z) : result A :=
  let n := Z.of_nat (length l) in
  if (0 <=? i)%Z then index l (Z.to_nat i)
  else if (- n <=? i)%Z then index l (Z.to_nat (n + i))
  else Raise IndexError.

(** [for i in l], threading a state through a body that may raise. *)
Fixpoint for_each {S I : Type} (body : S -> I -> result S) (l : list I) (s : S)
  : result S :=
  match l with
  | [] => Ok s
  | i :: l' => s' <-- body s i ;; for_each body l' s'
  end.

(** ** Points *)

Abbreviation vec2 := (Q * Q)%type.

Definition vadd (p q : vec2) : vec2 := (fst p + fst q, snd p + snd q).
Definition vsub (p q : vec2) : vec2 := (fst p - fst q, snd p - snd q).
Definition vmul (p q : vec2) : vec2 := (fst p * fst q, snd p * snd q).
Definition vscale (c : Q) (p : vec2) : vec2 := (c * fst p, c * snd p).

Definition veq (p q : vec2) : Prop := fst p == fst q /\ snd p == snd q.

Infix "=v=" := veq (at level 70, no associativity).

(** ** vanilla_to_motor *)

(** [shapes] has shape (ncpt,2,nsub) and is only read as [shapes[:,:,i]]:
    it is kept as the list, over the sub-strokes [i], of the [ncpt]
    control points of sub-stroke [i]; [motor_spline] likewise. *)
Abbreviation shapes_t := (list (list vec2)).

(** The loop state: [motor], [motor_spline], [previous_pos]. *)
Abbreviation motor_state := (list (list vec2) * shapes_t * vec2)%type.

(** [motor[i] = row]: the row assigned to a slot of [neval] points has
    [neval] points, or one point that is broadcast; another length is a
    shape error. *)
Definition assign_row (neval : nat) (row : list vec2) : result (list vec2) :=
  if (length row =? neval)%nat then Ok row
  else match row with
       | [p] => Ok (replicate neval p)
       | _ => Raise RuntimeError
       end.

Section Motor.

(** [splines.get_stk_from_bspline(Y, neval)]: the trajectory of [neval]
    points of the b-spline with control points [Y]. *)
Variable get_stk_from_bspline : list vec2 -> nat -> list vec2.

(** The assertions at the head of [vanilla_to_motor] (tensors of rank 3,
    1 and 1 with a second dimension of 2) hold by the types of the
    model.  The body of [for i in range(nsub)]: *)
Definition motor_body (shapes : shapes_t) (invscales : list Q) (neval : nat)
  (st : motor_state) (i : nat) : result motor_state :=
  let '(motor, motor_spline, previous_pos) := st in
  s <-- index invscales i ;;
  sh <-- index shapes i ;;
  let shapes_scaled := map (vscale s) sh in
  let traj := get_stk_from_bspline shapes_scaled neval in
  t0 <-- index traj 0 ;;
  let offset := vsub t0 previous_pos in
  let row := map (fun p => vsub p offset) traj in
  (* motor[i] = traj - offset *)
  row <-- assign_row neval row ;;
  let motor := <[i := row]> motor in
  let motor_spline :=
    <[i := map (fun p => vsub p offset) shapes_scaled]> motor_spline in
  (* previous_pos = motor[i,-1] *)
  previous_pos <-- py_index row (-1) ;;
  Ok (motor, motor_spline, previous_pos).

Definition vanilla_to_motor (shapes : shapes_t) (invscales : list Q)
  (first_pos : vec2) (neval : nat) : result (list (list vec2) * shapes_t) :=
  let nsub := length shapes in
  let motor := replicate nsub (replicate neval (0, 0)) in
  let motor_spline := map (map (fun _ => (0, 0))) shapes in
  st <-- for_each (motor_body shapes invscales neval) (seq 0 nsub)
           (motor, motor_spline, first_pos) ;;
  Ok (fst (fst st), snd (fst st)).

End Motor.

(** ** Rendering: helpers of the tensor operations used *)

Definition Qltb (x y : Q) : bool := negb (Qle_bool y x).

(** [torch.floor], [torch.ceil]: the results are float tensors. *)
Definition floor (x : Q) : Q := inject_Z (Qfloor x).
Definition ceil (x : Q) : Q := inject_Z (Qceiling x).

(** [.long()]: conversion to an integer, truncating toward zero. *)
Definition long (x : Q) : Z := (Qnum x ÷ Zpos (Qden x))%Z.

(** [torch.sum] *)
Definition tsum (l : list Q) : Q := foldr Qplus 0 l.

(** [t[mask]]: the entries of [t] at which the boolean mask holds. *)
Fixpoint mask_select {A : Type} (t : list A) (mask : list bool) : list A :=
  match t, mask with
  | a :: t', b :: mask' =>
      if b then a :: mask_select t' mask' else mask_select t' mask'
  | _, _ => []
  end.

(** [torch.where(c, a, b)] *)
Definition where_ (c : list bool) (a b : list Q) : list Q :=
  zip_with (fun (ci : bool) (ab : Q * Q) => if ci then fst ab else snd ab)
    c (zip a b).

(** [torch.unique]: the distinct values, in increasing order. *)
Fixpoint insert_unique (a : Z) (l : list Z) : list Z :=
  match l with
  | [] => [a]
  | b :: l' =>
      if (a <? b)%Z then a :: b :: l'
      else if (a =? b)%Z then b :: l'
      else b :: insert_unique a l'
  end.

Definition unique (l : list Z) : list Z := foldr insert_unique [] l.

(** An (m,n) image: its shape and its data in row-major order. *)
Record image : Type := {
  shape : nat * nat;
  data : list Q
}.

(** [torch.zeros(imsize)] *)
Definition zeros (imsize : nat * nat) : image :=
  {| shape := imsize; data := replicate (fst imsize * snd imsize) 0 |}.

(** [D.scatter_add(0, index, src)] on a flat tensor: [D[index[j]] += src[j]]
    for every [j]; an index outside the tensor is a runtime error. *)
Definition scatter_add (D : list Q) (index : list Z) (src : list Q)
  : result (list Q) :=
  for_each
    (fun (D : list Q) (iv : Z * Q) =>
       if ((0 <=? fst iv)%Z && (fst iv <? Z.of_nat (length D))%Z)%bool
       then Ok (alter (fun d => d + snd iv) (Z.to_nat (fst iv)) D)
       else Raise RuntimeError)
    (zip index src) D.

(** ** check_bounds, pair_dist, seqadd, space_motor_to_img *)

Definition check_bounds (myt : list vec2) (imsize : Z * Z) : list bool :=
  let xt := map fst myt in
  let yt := map snd myt in
  let x_out :=
    map (fun x => Qltb (floor x) 0 || Qltb (inject_Z (fst imsize)) (ceil x))
      xt in
  let y_out :=
    map (fun y => Qltb (floor y) 0 || Qltb (inject_Z (snd imsize)) (ceil y))
      yt in
  zip_with orb x_out y_out.

Definition space_motor_to_img (pt : list vec2) : list vec2 :=
  map (fun p => (- snd p, fst p)) pt.

Section Render.

(** [torch.sqrt] *)
Variable sqrt : Q -> Q.

(** [util.general.sub2ind(shape, rows, cols)], applied elementwise: the
    index in the flattened image of the pixel at a row and a column. *)
Variable sub2ind : nat * nat -> Z -> Z -> Z.

(** [util.general.imfilter(A, H, mode='conv')] and
    [util.general.fspecial(hsize, sigma, ftype='gaussian')]. *)
Variable imfilter : image -> list (list Q) -> image.
Variable fspecial : nat -> Q -> list (list Q).

Definition pair_dist (D : list vec2) : list Q :=
  let x1 := take (length D - 1) D in
  let x2 := drop 1 D in
  map sqrt
    (zip_with (fun a b => fst (vsub a b) ^ 2 + snd (vsub a b) ^ 2) x1 x2).

Definition seqadd (D : image) (lind_x lind_y inkval : list Q)
  : result image :=
  _ <-- assert ((length lind_x =? length lind_y)%nat
                && (length lind_y =? length inkval)%nat) ;;
  (* check if any adding points are out of bounds *)
  let lind := zip lind_x lind_y in
  let out :=
    check_bounds lind
      (Z.of_nat (fst (shape D)) - 1, Z.of_nat (snd (shape D)) - 1)%Z in
  (* keep only the adding points that are in bounds *)
  let keep := map negb out in
  let lind_x := map long (mask_select lind_x keep) in
  let lind_y := map long (mask_select lind_y keep) in
  let inkval := mask_select inkval keep in
  (* return D if all adding points are out of bounds *)
  if (length lind_x =? 0)%nat then Ok D else
  let shape := shape D in
  let D := data D in
  let lind := zip_with (sub2ind shape) lind_x lind_y in
  let zero := map (fun _ => 0) inkval in
  (* sum all inkvals with same index *)
  let lind_unique := unique lind in
  let inkval_unique :=
    map (fun i => tsum (where_ (map (Z.eqb i) lind) inkval zero))
      lind_unique in
  D <-- scatter_add D lind_unique inkval_unique ;;
  Ok {| shape := shape; data := D |}.

(** ** render_image *)

(** [parameters]: the fields of the [defaultps] object that the renderer
    reads. *)
Record defaultps : Type := {
  imsize : nat * nat;
  ink_pp : Q;
  ink_max_dist : Q;
  ink_a : Q;
  ink_b : Q;
  ink_ncon : nat;
  fsize : nat
}.

(** [myink] is the 0-dim tensor [ink] when one point remains and a
    (k,) tensor otherwise. *)
Inductive inkv : Type :=
| Scalar (q : Q)
| Vector (v : list Q).

Definition ink_sum (myink : inkv) : Q :=
  match myink with
  | Scalar q => q
  | Vector v => tsum v
  end.

(** [c*myink] for a 0-dim [c] *)
Definition ink_scale (c : Q) (myink : inkv) : inkv :=
  match myink with
  | Scalar q => Scalar (c * q)
  | Vector v => Vector (map (Qmult c) v)
  end.

(** [myink*r] for a (k,) tensor [r], with broadcasting of a 0-dim [myink] *)
Definition ink_times (myink : inkv) (r : list Q) : list Q :=
  match myink with
  | Scalar q => map (Qmult q) r
  | Vector v => zip_with Qmult v r
  end.

(** Lines 234-240: the ink of each point before renormalization. *)
Definition point_ink (ink max_dist : Q) (myt : list vec2) : inkv :=
  if (length myt =? 1)%nat then Scalar ink
  else
    let dist := pair_dist myt in
    let dist := map (fun d => Qmin d max_dist) dist in
    let dist := take 1 dist ++ dist in
    Vector (map (Qmult (ink / max_dist)) dist).

(** Lines 244-249: make sure we have the minimum amount of ink. *)
Definition renormalize (ink : Q) (myink : inkv) : result inkv :=
  let sumink := ink_sum myink in
  if Qltb (Qabs sumink) (1 # 1000000) then
    match myink with
    | Scalar _ => Raise IndexError (* myink.shape[0] of a 0-dim tensor *)
    | Vector v =>
        let nink := length v in
        Ok (Vector (map (Qmult (ink / inject_Z (Z.of_nat nink)))
                      (map (fun _ => 1) v)))
    end
  else if Qltb sumink ink then Ok (ink_scale (ink / sumink) myink)
  else Ok myink.

(** Lines 233-250, ending with the assertion on the total. *)
Definition stroke_ink (ink max_dist : Q) (myt : list vec2) : result inkv :=
  myink <-- renormalize ink (point_ink ink max_dist myt) ;;
  _ <-- assert (Qltb (ink - (1 # 10000)) (ink_sum myink)) ;;
  Ok myink.

(** The body of [for i in range(nsub_total)] on the trajectory
    [myt = traj_img[i]]; the state is [(pimg, ink_off_page)]. *)
Definition paint_body (parameters : defaultps) (st : image * bool)
  (myt : list vec2) : result (image * bool) :=
  let '(pimg, ink_off_page) := st in
  let imsize := imsize parameters in
  let ink := ink_pp parameters in
  let max_dist := ink_max_dist parameters in
  (* reduce trajectory to only those points that are in bounds *)
  let out :=
    check_bounds myt (Z.of_nat (fst imsize), Z.of_nat (snd imsize)) in
  let ink_off_page := if existsb id out then true else ink_off_page in
  if forallb id out then Ok (pimg, ink_off_page) else
  let myt := mask_select myt (map negb out) in
  myink <-- stroke_ink ink max_dist myt ;;
  (* share ink with the neighboring 4 pixels *)
  let x := map fst myt in
  let y := map snd myt in
  let xfloor := map floor x in
  let yfloor := map floor y in
  let xceil := map ceil x in
  let yceil := map ceil y in
  let x_c_ratio := zip_with Qminus x xfloor in
  let y_c_ratio := zip_with Qminus y yfloor in
  let x_f_ratio := map (fun r => 1 - r) x_c_ratio in
  let y_f_ratio := map (fun r => 1 - r) y_c_ratio in
  (* paint the image *)
  pimg <-- seqadd pimg xfloor yfloor
             (zip_with Qmult (ink_times myink x_f_ratio) y_f_ratio) ;;
  pimg <-- seqadd pimg xceil yfloor
             (zip_with Qmult (ink_times myink x_c_ratio) y_f_ratio) ;;
  pimg <-- seqadd pimg xfloor yceil
             (zip_with Qmult (ink_times myink x_f_ratio) y_c_ratio) ;;
  pimg <-- seqadd pimg xceil yceil
             (zip_with Qmult (ink_times myink x_c_ratio) y_c_ratio) ;;
  Ok (pimg, ink_off_page).

(** Lines 208-268: the ink grid and the off-page flag after the loop. *)
Definition paint (cell_traj : list (list vec2)) (parameters : defaultps)
  : result (image * bool) :=
  (* device = cell_traj[0].device *)
  _ <-- index cell_traj 0 ;;
  let traj_img := map space_motor_to_img cell_traj in
  let pimg := zeros (imsize parameters) in
  for_each (paint_body parameters) traj_img (pimg, false).

(** [torch.min(pimg, max_val)] and [torch.max(pimg, min_val)] *)
Definition clip_above (max_val : Q) (pimg : image) : image :=
  {| shape := shape pimg; data := map (fun p => Qmin p max_val) (data pimg) |}.
Definition clip_below (min_val : Q) (pimg : image) : image :=
  {| shape := shape pimg; data := map (fun p => Qmax p min_val) (data pimg) |}.

(** Lines 270-301: broadening, truncation, blur, final truncation. *)
Definition blur_truncate (pimg : image) (blur_sigma : Q)
  (parameters : defaultps) : image :=
  let a := ink_a parameters in
  let b := ink_b parameters in
  let ink_ncon := ink_ncon parameters in
  let H_broaden :=
    map (map (Qmult b))
      [[a / 12; a / 6; a / 12]; [a / 6; 1 - a; a / 6];
       [a / 12; a / 6; a / 12]] in
  let pimg := Nat.iter ink_ncon (fun pimg => imfilter pimg H_broaden) pimg in
  let min_val := 0 in
  let max_val := 1 in
  (* truncate *)
  let pimg := clip_above max_val pimg in
  let pimg :=
    if Qltb 0 blur_sigma then
      let H_gaussian := fspecial (fsize parameters) blur_sigma in
      imfilter (imfilter pimg H_gaussian) H_gaussian
    else pimg in
  (* final truncation *)
  clip_below min_val (clip_above max_val pimg).

(** The blurred and truncated ink map, before the noise is blended in. *)
Definition ink_map (cell_traj : list (list vec2)) (blur_sigma : Q)
  (parameters : defaultps) : result (image * bool) :=
  st <-- paint cell_traj parameters ;;
  Ok (blur_truncate (fst st) blur_sigma parameters, snd st).

Definition render_image (cell_traj : list (list vec2)) (epsilon blur_sigma : Q)
  (parameters : defaultps) : result (image * bool) :=
  st <-- ink_map cell_traj blur_sigma parameters ;;
  let pimg := fst st in
  (* probability of each pixel being on *)
  let pimg :=
    {| shape := shape pimg;
       data := map (fun p => (1 - epsilon) * p + epsilon * (1 - p))
                 (data pimg) |} in
  Ok (pimg, snd st).

End Render.

(** * The float32 model *)

Module F32.

(** ** Rounding *)

(** [ilog2 x]: the integer [e] with [2^e <= |x| < 2^(e+1)], for [x]
    other than 0. *)
Definition ilog2 (x : Q) : Z :=
  let k := (Z.log2 (Z.abs (Qnum x)) - Z.log2 (Zpos (Qden x)))%Z in
  if Qle_bool (2 ^ k) (Qabs x) then k else (k - 1)%Z.

(** The integer nearest to [y], the even one of two at the same
    distance. *)
Definition rne (y : Q) : Z :=
  let f := Qfloor y in
  match Qcompare (y - inject_Z f) (1 # 2) with
  | Lt => f
  | Gt => (f + 1)%Z
  | Eq => if Z.even f then f else (f + 1)%Z
  end.

(** The float32 nearest to [x]: a significand of 24 bits, ties to even. *)
Definition round (x : Q) : Q :=
  let x := Qred x in
  if Qeq_bool x 0 then 0
  else
    let e := (ilog2 x - 23)%Z in
    inject_Z (rne (x / 2 ^ e)) * 2 ^ e.

Section Rounded.

(** The rounding of the result of one operation on float32 tensors. *)
Variable fl : Q -> Q.

(** [p - q] and [c*p] on (2,) float32 tensors *)
Definition fsub (p q : vec2) : vec2 := (fl (fst p - fst q), fl (snd p - snd q)).
Definition fscale (c : Q) (p : vec2) : vec2 := (fl (c * fst p), fl (c * snd p)).

(** ** vanilla_to_motor *)

Section Motor.

Variable get_stk_from_bspline : list vec2 -> nat -> list vec2.

(** The body of [for i in range(nsub)], on float32 tensors. *)
Definition motor_body (shapes : shapes_t) (invscales : list Q) (neval : nat)
  (st : motor_state) (i : nat) : result motor_state :=
  let '(motor, motor_spline, previous_pos) := st in
  s <-- index invscales i ;;
  sh <-- index shapes i ;;
  (* re-scale the control points *)
  let shapes_scaled := map (fscale s) sh in
  let traj := get_stk_from_bspline shapes_scaled neval in
  (* reposition; shift by offset *)
  t0 <-- index traj 0 ;;
  let offset := fsub t0 previous_pos in
  let row := map (fun p => fsub p offset) traj in
  (* motor[i] = traj - offset *)
  row <-- assign_row neval row ;;
  let motor := <[i := row]> motor in
  let motor_spline :=
    <[i := map (fun p => fsub p offset) shapes_scaled]> motor_spline in
  (* previous_pos = motor[i,-1] *)
  previous_pos <-- py_index row (-1) ;;
  Ok (motor, motor_spline, previous_pos).

Definition vanilla_to_motor (shapes : shapes_t) (invscales : list Q)
  (first_pos : vec2) (neval : nat) : result (list (list vec2) * shapes_t) :=
  let nsub := length shapes in
  let motor := replicate nsub (replicate neval (0, 0)) in
  let motor_spline := map (map (fun _ => (0, 0))) shapes in
  st <-- for_each (motor_body shapes invscales neval) (seq 0 nsub)
           (motor, motor_spline, first_pos) ;;
  Ok (fst (fst st), snd (fst st)).

End Motor.

(** ** render_image, lines 233-250 *)

Section Ink.

(** [torch.sqrt] on a float32 tensor. *)
Variable sqrt : Q -> Q.

(** [torch.sum] on a (k,) float32 tensor; the order in which it adds
    the entries is the library's. *)
Variable torch_sum : list Q -> Q.

(** [pair_dist]: the difference, its square and the sum of the two
    squares are one float32 operation each. *)
Definition pair_dist (D : list vec2) : list Q :=
  let x1 := take (length D - 1) D in
  let x2 := drop 1 D in
  map sqrt
    (zip_with (fun a b => fl (fl (fst (fsub a b) ^ 2) + fl (snd (fsub a b) ^ 2)))
       x1 x2).

(** [torch.sum(myink)]; the sum of a 0-dim tensor is the tensor. *)
Definition ink_sum (myink : inkv) : Q :=
  match myink with
  | Scalar q => q
  | Vector v => torch_sum v
  end.

(** [c*myink] for a 0-dim [c] *)
Definition ink_scale (c : Q) (myink : inkv) : inkv :=
  match myink with
  | Scalar q => Scalar (fl (c * q))
  | Vector v => Vector (map (fun m => fl (c * m)) v)
  end.

(** Lines 234-240: the ink of each point before renormalization. *)
Definition point_ink (ink max_dist : Q) (myt : list vec2) : inkv :=
  if (length myt =? 1)%nat then Scalar ink
  else
    let dist := pair_dist myt in
    let dist := map (fun d => Qmin d max_dist) dist in
    let dist := take 1 dist ++ dist in
    ink_scale (fl (ink / max_dist)) (Vector dist).

(** Lines 244-249; the Python float [1e-6] is compared as a float32. *)
Definition renormalize (ink : Q) (myink : inkv) : result inkv :=
  let sumink := ink_sum myink in
  if Qltb (Qabs sumink) (fl (1 # 1000000)) then
    match myink with
    | Scalar _ => Raise IndexError (* myink.shape[0] of a 0-dim tensor *)
    | Vector v =>
        let nink := length v in
        Ok (ink_scale (fl (ink / inject_Z (Z.of_nat nink)))
              (Vector (map (fun _ => 1) v)))
    end
  else if Qltb sumink ink then Ok (ink_scale (fl (ink / sumink)) myink)
  else Ok myink.

(** Lines 233-250, ending with the assertion on the total, in which
    [ink - 1e-4] is a float32 subtraction. *)
Definition stroke_ink (ink max_dist : Q) (myt : list vec2) : result inkv :=
  myink <-- renormalize ink (point_ink ink max_dist myt) ;;
  _ <-- assert (Qltb (fl (ink - fl (1 # 10000))) (ink_sum myink)) ;;
  Ok myink.

End Ink.

End Rounded.

End F32.

(** * The exact model, continued *)

(** ** apply_warp *)

(** A (4,) tensor [A], kept as its two halves [A[:2]] and [A[2:]], the
    only way the code reads it. *)
Abbreviation vec4 := (vec2 * vec2)%type.

(** [torch.mean(pts, dim=0)] *)
Definition mean_pt (pts : list vec2) : vec2 :=
  let n := inject_Z (Z.of_nat (length pts)) in
  (tsum (map fst pts) / n, tsum (map snd pts) / n).

(** Modelled from the spec: [util.stroke.com_char] is not among the
    embedded files; the spec has it compute "the character's center of
    mass across all concatenated trajectory points". *)
Definition com_char (cell_traj : list (list vec2)) : vec2 :=
  mean_pt (concat cell_traj).

(** Modelled from the spec: [util.stroke.affine_warp] is not among the
    embedded files; the spec has it apply
    [point' = B[:2]*point + B[2:]] to every point of a stroke. *)
Definition affine_warp (stk : list (list vec2)) (B : vec4) : list (list vec2) :=
  map (map (fun point => vadd (vmul (fst B) point) (snd B))) stk.

(** The rows of (n_i,neval_i,2) tensors agree in their second dimension. *)
Definition same_neval {A : Type} (rows : list (list A)) : bool :=
  match rows with
  | [] => true
  | row :: rows' => forallb (fun r => (length r =? length row)%nat) rows'
  end.

(** [torch.cat(tensors)] along the first dimension: the list must not be
    empty, and the tensors must agree in the other dimensions. *)
Definition cat {A : Type} (tensors : list (list (list A)))
  : result (list (list A)) :=
  match tensors with
  | [] => Raise RuntimeError
  | _ =>
      if same_neval (concat tensors) then Ok (concat tensors)
      else Raise RuntimeError
  end.

Definition apply_warp (motor_unwarped : list (list (list vec2))) (A : vec4)
  : result (list (list (list vec2))) :=
  cell_traj <-- cat motor_unwarped ;;
  let com := com_char cell_traj in
  let B_lo := fst A in
  let B_hi := vsub (snd A) (vmul (vsub (fst A) (1, 1)) com) in
  let B := (B_lo, B_hi) in
  Ok (map (fun stk => affine_warp stk B) motor_unwarped).

(** ** Relations *)

(** Values of log-probability tensors: a rational or one of the float
    specials. *)
Inductive xnum : Type :=
| Fin (q : Q)
| PInf
| NInf
| NaN.

(** [a - b] on log-probabilities *)
Definition xsub (a b : xnum) : xnum :=
  match a, b with
  | NaN, _ | _, NaN => NaN
  | Fin x, Fin y => Fin (x - y)
  | Fin _, PInf => NInf
  | Fin _, NInf => PInf
  | PInf, PInf => NaN
  | PInf, _ => PInf
  | NInf, NInf => NaN
  | NInf, _ => NInf
  end.

(** [ll == -float('inf')] *)
Definition is_neg_inf (ll : xnum) : bool :=
  match ll with
  | NInf => true
  | _ => false
  end.

(** [dist.normal.Normal(loc, scale)] *)
Record Normal : Type := {
  loc : Q;
  scale : Q
}.

(** The fields of the library object that the relations read:
    [lib.rel['sigma_x']], [lib.rel['sigma_y']], [lib.ncpt],
    [lib.tokenvar['sigma_attach']]. *)
Record Library : Type := {
  sigma_x : Q;
  sigma_y : Q;
  lib_ncpt : nat;
  lib_sigma_attach : Q
}.

(** The fields of a part token that the relations read. *)
Record PartToken : Type := {
  motor : list (list vec2);
  motor_spline : shapes_t
}.

Definition categories_allowed : list string :=
  ["unihist"; "start"; "end"; "mid"]%string.

(** [c in l] for a list of strings *)
Definition str_in (c : string) (l : list string) : bool :=
  existsb (String.eqb c) l.

(** Relation objects of the three concrete classes, with the attributes
    their constructors set; [loc_Cov] is the diagonal of the covariance
    of [loc_dist]. *)
Inductive relation : Type :=
| Independent (category : string) (loc_Cov : Q * Q) (gpos : vec2)
    (imsize : nat * nat)
| Attach (category : string) (loc_Cov : Q * Q) (attach_ix : Z)
| AttachAlong (category : string) (loc_Cov : Q * Q) (attach_ix : Z)
    (attach_subix : Z) (eval_spot : Q) (ncpt : nat) (sigma_attach : Q).

Definition category (rel : relation) : string :=
  match rel with
  | Independent c _ _ _ => c
  | Attach c _ _ => c
  | AttachAlong c _ _ _ _ _ _ => c
  end.

(** [rel.attach_ix]; an independent relation has no such attribute. *)
Definition attach_ix (rel : relation) : result Z :=
  match rel with
  | Independent _ _ _ _ => Raise AttributeError
  | Attach _ _ ix => Ok ix
  | AttachAlong _ _ ix _ _ _ _ => Ok ix
  end.

(** [Relation.__init__]: checks the category and builds [loc_dist]. *)
Definition Relation (category : string) (lib : Library) : result (Q * Q) :=
  _ <-- assert (str_in category categories_allowed) ;;
  Ok (sigma_x lib, sigma_y lib).

Definition RelationIndependent (category : string) (gpos : vec2)
  (imsize : nat * nat) (lib : Library) : result relation :=
  loc_Cov <-- Relation category lib ;;
  _ <-- assert (String.eqb category "unihist") ;;
  Ok (Independent category loc_Cov gpos imsize).

Definition RelationAttach (category : string) (attach_ix : Z) (lib : Library)
  : result relation :=
  loc_Cov <-- Relation category lib ;;
  _ <-- assert (str_in category ["start"; "end"; "mid"]%string) ;;
  Ok (Attach category loc_Cov attach_ix).

Definition loc_Cov (rel : relation) : Q * Q :=
  match rel with
  | Independent _ c _ _ => c
  | Attach _ c _ => c
  | AttachAlong _ c _ _ _ _ _ => c
  end.

Definition RelationAttachAlong (category : string) (attach_ix attach_subix : Z)
  (eval_spot : Q) (lib : Library) : result relation :=
  super <-- RelationAttach category attach_ix lib ;;
  _ <-- assert (String.eqb category "mid") ;;
  Ok (AttachAlong category (loc_Cov super) attach_ix attach_subix eval_spot
        (lib_ncpt lib) (lib_sigma_attach lib)).

(** A relation token; [eval_spot_token] is [None] when the object has no
    such attribute. *)
Record token : Type := {
  rel : relation;
  eval_spot_token : option Q
}.

(** [RelationToken.__init__(rel, **kwargs)] *)
Definition RelationToken (rel : relation) (kwargs : gmap string Q)
  : result token :=
  if str_in (category rel) ["unihist"; "start"; "end"]%string then
    _ <-- assert (bool_decide (kwargs = ∅)) ;;
    Ok {| rel := rel; eval_spot_token := None |}
  else
    _ <-- assert (bool_decide (dom kwargs = {[ "eval_spot_token"%string ]})) ;;
    Ok {| rel := rel; eval_spot_token := kwargs !! "eval_spot_token"%string |}.

Section Relations.

(** [splines.bspline_gen_s(nland, neval)]: the evaluation points and the
    lower and upper bound of the valid parametric range. *)
Variable bspline_gen_s : nat -> nat -> list Q * Q * Q.

(** [splines.bspline_eval(sval, cpts)] on one coordinate. *)
Variable bspline_eval : Q -> list vec2 -> result vec2.

(** [Normal.log_prob], [Normal.cdf], [torch.log]. *)
Variable log_prob : Normal -> Q -> xnum.
Variable cdf : Normal -> Q -> Q.
Variable log : Q -> xnum.

(** [Normal.sample()]: the draw the generator gives at its [n]-th call. *)
Variable sample : Normal -> nat -> Q.

(** The argument is a scalar by its type, which is what the assertion of
    the function checks; no other statement of it raises. *)
Definition score_eval_spot_token (eval_spot_token : Q) (eval_spot_dist : Normal)
  (ncpt : nat) : xnum :=
  let '(_, lb, ub) := bspline_gen_s ncpt 1 in
  if Qltb eval_spot_token lb || Qltb ub eval_spot_token then NInf
  else
    let ll := log_prob eval_spot_dist eval_spot_token in
    (* correction for bounds *)
    let p_within := cdf eval_spot_dist ub - cdf eval_spot_dist lb in
    xsub ll (log p_within).

(** The loop [while ll == -inf] runs at most [fuel] times; [n] counts the
    draws taken from the generator. [None]: still looping. *)
Fixpoint sample_eval_spot_token (fuel : nat) (eval_spot_dist : Normal)
  (ncpt : nat) (n : nat) : option (Q * nat) :=
  match fuel with
  | O => None
  | S fuel' =>
      let eval_spot_token := sample eval_spot_dist n in
      let ll := score_eval_spot_token eval_spot_token eval_spot_dist ncpt in
      if is_neg_inf ll
      then sample_eval_spot_token fuel' eval_spot_dist ncpt (S n)
      else Some (eval_spot_token, S n)
  end.

(** [rel.sample_token()], by the class of [rel]. *)
Definition sample_token (fuel : nat) (rel : relation) (n : nat)
  : option (result token * nat) :=
  match rel with
  | AttachAlong _ _ _ _ eval_spot ncpt sigma_attach =>
      let eval_spot_dist := {| loc := eval_spot; scale := sigma_attach |} in
      match sample_eval_spot_token fuel eval_spot_dist ncpt n with
      | None => None
      | Some (eval_spot_token, n') =>
          Some (RelationToken rel
                  (<["eval_spot_token"%string := eval_spot_token]> ∅), n')
      end
  | _ => Some (RelationToken rel ∅, n)
  end.

(** [rel.score_token(token)], by the class of [rel]. *)
Definition score_token (rel : relation) (tok : token) : result xnum :=
  match rel with
  | AttachAlong _ _ _ _ eval_spot ncpt sigma_attach =>
      match eval_spot_token tok with
      | None => Raise AssertionError (* assert hasattr(token, ...) *)
      | Some t =>
          let eval_spot_dist := {| loc := eval_spot; scale := sigma_attach |} in
          Ok (score_eval_spot_token t eval_spot_dist ncpt)
      end
  | _ => Ok (Fin 0)
  end.

(** [token.get_attach_point(prev_parts)] *)
Definition get_attach_point (tok : token) (prev_parts : list PartToken)
  : result vec2 :=
  let r := rel tok in
  if String.eqb (category r) "unihist" then
    match r with
    | Independent _ _ gpos _ => Ok gpos
    | _ => Raise AttributeError
    end
  else
    ix <-- attach_ix r ;;
    prev <-- py_index prev_parts ix ;;
    if String.eqb (category r) "start" then
      subtraj <-- py_index (motor prev) 0 ;;
      py_index subtraj 0
    else if String.eqb (category r) "end" then
      subtraj <-- py_index (motor prev) (-1) ;;
      py_index subtraj (-1)
    else
      _ <-- assert (String.eqb (category r) "mid") ;;
      match r with
      | AttachAlong _ _ _ attach_subix _ _ _ =>
          bspline <-- py_index (motor_spline prev) attach_subix ;;
          match eval_spot_token tok with
          | Some t => bspline_eval t bspline
          | None => Raise AttributeError
          end
      | _ => Raise AttributeError
      end.

(** [token.sample_location(prev_parts)]; [noise] is the draw from
    [rel.loc_dist]. *)
Definition sample_location (tok : token) (prev_parts : list PartToken)
  (noise : vec2) : result vec2 :=
  base <-- get_attach_point tok prev_parts ;;
  Ok (vadd base noise).

End Relations.

(** ** Scoring with the checks of torch.distributions *)

Module Checked.

(** What the attribute [eval_spot_token] of a token may hold: a Python
    int or float, a 0-dim tensor, or another object (a tensor of another
    shape among them). *)
Inductive spot : Type :=
| PyNumber (q : Q)
| Tensor0 (q : Q)
| Other.

(** [dist.normal.Normal(loc, scale)]: a distribution checks its
    arguments when it is built, and a scale that is not positive is a
    ValueError. *)
Definition new_Normal (loc scale : Q) : result Normal :=
  if Qltb 0 scale then Ok {| loc := loc; scale := scale |}
  else Raise ValueError.

Section Scoring.

Variable bspline_gen_s : nat -> nat -> list Q * Q * Q.

(** [Normal.log_prob] and [Normal.cdf] on a 0-dim tensor, [torch.log]. *)
Variable log_prob : Normal -> Q -> xnum.
Variable cdf : Normal -> Q -> Q.
Variable log : Q -> xnum.

(** [eval_spot_dist.log_prob(value)]: a value that is not a tensor is a
    ValueError. *)
Definition Normal_log_prob (d : Normal) (value : spot) : result xnum :=
  match value with
  | Tensor0 q => Ok (log_prob d q)
  | _ => Raise ValueError
  end.

Definition score_eval_spot_token (eval_spot_token : spot)
  (eval_spot_dist : Normal) (ncpt : nat) : result xnum :=
  (* assert type(eval_spot_token) in [int, float] or 0-dim tensor *)
  v <-- match eval_spot_token with
        | PyNumber v | Tensor0 v => Ok v
        | Other => Raise AssertionError
        end ;;
  let '(_, lb, ub) := bspline_gen_s ncpt 1 in
  if Qltb v lb || Qltb ub v then Ok NInf
  else
    ll <-- Normal_log_prob eval_spot_dist eval_spot_token ;;
    (* correction for bounds *)
    let p_within := cdf eval_spot_dist ub - cdf eval_spot_dist lb in
    Ok (xsub ll (log p_within)).

(** [rel.score_token(token)], by the class of [rel]; the token is read
    through its attribute [eval_spot_token] only, [None] when it has no
    such attribute. *)
Definition score_token (rel : relation) (eval_spot_token : option spot)
  : result xnum :=
  match rel with
  | AttachAlong _ _ _ _ eval_spot ncpt sigma_attach =>
      match eval_spot_token with
      | None => Raise AssertionError (* assert hasattr(token, ...) *)
      | Some t =>
          eval_spot_dist <-- new_Normal eval_spot sigma_attach ;;
          score_eval_spot_token t eval_spot_dist ncpt
      end
  | _ => Ok (Fin 0)
  end.

End Scoring.

End Checked.

(** ** apply_render *)

Section ApplyRender.

Variable sqrt : Q -> Q.
Variable sub2ind : nat * nat -> Z -> Z -> Z.
Variable imfilter : image -> list (list Q) -> image.
Variable fspecial : nat -> Q -> list (list Q).


End ApplyRender.

(** ** optimizable_parameters and score_location *)

(** A parameter to optimize, or a bound of one: a 0-dim tensor or a
    (2,) tensor. *)
Inductive param : Type :=
| PScalar (q : Q)
| PPoint (p : vec2).

Section RelationParameters.

Variable bspline_gen_s : nat -> nat -> list Q * Q * Q.
Variable bspline_eval : Q -> list vec2 -> result vec2.

(** [MultivariateNormal(zeros(2), loc_Cov).log_prob] *)
Variable mvn_log_prob : Q * Q -> vec2 -> xnum.

(** [RelationToken.optimizable_parameters] *)
Definition RelationToken_optimizable_parameters (tok : token)
  : result (list Q * list Q * list Q) :=
  if String.eqb (category (rel tok)) "mid" then
    match rel tok with
    | AttachAlong _ _ _ _ _ ncpt _ =>
        let '(_, lb, ub) := bspline_gen_s ncpt 1 in
        match eval_spot_token tok with
        | Some t => Ok ([t], [lb], [ub])
        | None => Raise AttributeError
        end
    | _ => Raise AttributeError (* self.rel.ncpt *)
    end
  else Ok ([], [], []).

(** [rel.optimizable_parameters()], by the class of [rel]. *)
Definition Relation_optimizable_parameters (rel : relation)
  : list param * list param * list param :=
  match rel with
  | Independent _ _ gpos imsize =>
      ([PPoint gpos],
       [PPoint (0, - inject_Z (Z.of_nat (fst imsize)))],
       [PPoint (inject_Z (Z.of_nat (snd imsize)), 0)])
  | Attach _ _ _ => ([], [], [])
  | AttachAlong _ _ _ _ eval_spot ncpt _ =>
      let '(_, lb, ub) := bspline_gen_s ncpt 1 in
      ([PScalar eval_spot], [PScalar lb], [PScalar ub])
  end.


End RelationParameters.

(** * Vocabulary of the statements *)

(** [traj[0] - (traj[0] - previous_pos)] as the two float32
    subtractions give it: the first point of the repositioned trajectory
    of a spline that starts at [t0]. *)
Definition repositioned (fl : Q -> Q) (t0 prev : vec2) : vec2 :=
  F32.fsub fl t0 (F32.fsub fl t0 prev).

(** [p] is at [prev] up to the rounding of two subtractions of a
    relative error of at most [u] each, on both coordinates. *)
Definition near (u : Q) (t0 prev p : vec2) : Prop :=
  Qabs (fst p - fst prev)
    <= u * (1 + u) * Qabs (fst t0 - fst prev) + u * Qabs (fst prev) /\
  Qabs (snd p - snd prev)
    <= u * (1 + u) * Qabs (snd t0 - snd prev) + u * Qabs (snd prev).

(** The offset [t0 - prev] has no rounding error and [prev] is a
    float32, on both coordinates. *)
Definition exact_offset (fl : Q -> Q) (t0 prev : vec2) : Prop :=
  (fl (fst t0 - fst prev) == fst t0 - fst prev /\ fl (fst prev) == fst prev) /\
  (fl (snd t0 - snd prev) == snd t0 - snd prev /\ fl (snd prev) == snd prev).

(** The first point of the spline trajectory of sub-stroke [i], before
    the trajectory is repositioned. *)
Definition spline_start (fl : Q -> Q)
  (get_stk : list vec2 -> nat -> list vec2) (shapes : shapes_t)
  (invscales : list Q) (neval : nat) (i : nat) : option vec2 :=
  match invscales !! i, shapes !! i with
  | Some s, Some sh => head (get_stk (map (F32.fscale fl s) sh) neval)
  | _, _ => None
  end.

(** The trajectory of sub-stroke [i] starts at [p] when the position
    reached before it is [prev]: [p] is the repositioned start of the
    spline, which is near [prev], and is [prev] when the offset is
    exact. *)
Definition joined (fl : Q -> Q) (u : Q)
  (get_stk : list vec2 -> nat -> list vec2) (shapes : shapes_t)
  (invscales : list Q) (neval : nat) (i : nat) (prev p : vec2) : Prop :=
  exists t0,
    spline_start fl get_stk shapes invscales neval i = Some t0 /\
    p = repositioned fl t0 prev /\
    near u t0 prev p /\
    (exact_offset fl t0 prev -> p =v= prev).

(** [linked J i start rows]: the first row is joined to [start] as
    sub-stroke [i], and every further row to the last point of the row
    before it. *)
Fixpoint linked (J : nat -> vec2 -> vec2 -> Prop) (i : nat) (start : vec2)
  (rows : list (list vec2)) : Prop :=
  match rows with
  | [] => True
  | row :: rows' =>
      exists p q, head row = Some p /\ last row = Some q /\
                  J i start p /\ linked J (S i) q rows'
  end.


(** The rows that the loop of [vanilla_to_motor] writes, as a recursion
    over the sub-strokes paired with their inverse scales: the trajectory
    and the control points of each sub-stroke, both moved by the offset
    of the trajectory from the position reached so far. *)
Fixpoint motor_rows (get_stk : list vec2 -> nat -> list vec2) (neval : nat)
  (subs : list (list vec2 * Q)) (previous_pos : vec2)
  : list (list vec2 * list vec2) :=
  match subs with
  | [] => []
  | (sh, s) :: subs' =>
      let shapes_scaled := map (vscale s) sh in
      let traj := get_stk shapes_scaled neval in
      let offset := vsub (default (0, 0) (head traj)) previous_pos in
      let row := map (fun p => vsub p offset) traj in
      (row, map (fun p => vsub p offset) shapes_scaled)
      :: motor_rows get_stk neval subs' (default (0, 0) (last row))
  end.




(** The test of [check_bounds] on one point. *)
Definition out_of_bounds (imsize : Z * Z) (p : vec2) : bool :=
  (Qltb (floor (fst p)) 0 || Qltb (inject_Z (fst imsize)) (ceil (fst p)))
  || (Qltb (floor (snd p)) 0 || Qltb (inject_Z (snd imsize)) (ceil (snd p))).

(** The image size as [render_image] passes it to [check_bounds]. *)
Definition imsizeZ (parameters : defaultps) : Z * Z :=
  (Z.of_nat (fst (imsize parameters)), Z.of_nat (snd (imsize parameters))).

(** Adding points as triples [(x, y, ink)], and the three parallel
    tensors that [seqadd] receives for them. *)
Abbreviation adding_point := (Q * Q * Q)%type.

Definition xs (T : list adding_point) : list Q := map (fun t => fst (fst t)) T.
Definition ys (T : list adding_point) : list Q := map (fun t => snd (fst t)) T.
Definition vs (T : list adding_point) : list Q := map snd T.

(** The adding points that [seqadd] keeps on an image of shape [sh]. *)
Definition keptb (sh : nat * nat) (t : adding_point) : bool :=
  negb (out_of_bounds (Z.of_nat (fst sh) - 1, Z.of_nat (snd sh) - 1)%Z
          (fst t)).

(** The index in the flattened image at which an adding point lands. *)
Definition target (sub2ind : nat * nat -> Z -> Z -> Z) (sh : nat * nat)
  (t : adding_point) : Z :=
  sub2ind sh (long (fst (fst t))) (long (snd (fst t))).

(** The sum of the values paired with the index [i]. *)
Definition wsum (i : Z) (lv : list (Z * Q)) : Q :=
  tsum (map (fun iv => if (i =? fst iv)%Z then snd iv else 0) lv).

(** What [seqadd] does with the adding points [K] that it keeps. *)
Definition seqadd_kept (sub2ind : nat * nat -> Z -> Z -> Z) (D : image)
  (K : list adding_point) : result image :=
  if (length K =? 0)%nat then Ok D else
  let lind := map (target sub2ind (shape D)) K in
  D' <-- scatter_add (data D) (unique lind)
           (map (fun i => wsum i (zip lind (vs K))) (unique lind)) ;;
  Ok {| shape := shape D; data := D' |}.



(** An image of the size of the page, with one value per pixel. *)
Definition page_image (parameters : defaultps) (pimg : image) : Prop :=
  shape pimg = imsize parameters /\
  length (data pimg)
  = (fst (imsize parameters) * snd (imsize parameters))%nat.

(** A point off the page: its floor is negative or its ceiling exceeds
    the image dimension, on either axis. *)
Definition off_page (imsize : Z * Z) (p : vec2) : Prop :=
  (Qfloor (fst p) < 0)%Z \/ (fst imsize < Qceiling (fst p))%Z \/
  (Qfloor (snd p) < 0)%Z \/ (snd imsize < Qceiling (snd p))%Z.



(** The bounds that [bspline_gen_s] gives for [ncpt] control points. *)
Definition lower_bound (bspline_gen_s : nat -> nat -> list Q * Q * Q)
  (ncpt : nat) : Q := snd (fst (bspline_gen_s ncpt 1%nat)).
Definition upper_bound (bspline_gen_s : nat -> nat -> list Q * Q * Q)
  (ncpt : nat) : Q := snd (bspline_gen_s ncpt 1%nat).

(** The distribution of the eval-spot token of an attach-along relation,
    and its number of control points. *)
Definition eval_spot_dist (rel : relation) : Normal :=
  match rel with
  | AttachAlong _ _ _ _ eval_spot _ sigma_attach =>
      {| loc := eval_spot; scale := sigma_attach |}
  | _ => {| loc := 0; scale := 0 |}
  end.

Definition ncpt_of (rel : relation) : nat :=
  match rel with
  | AttachAlong _ _ _ _ _ ncpt _ => ncpt
  | _ => 0%nat
  end.

(** All the points of a list of strokes. *)
Definition points_of (motor : list (list (list vec2))) : list vec2 :=
  concat (concat motor).

(** [com] is the center of mass of the points [pts]: their number times
    [com] is their sum, on both coordinates. *)
Definition center_of_mass (pts : list vec2) (com : vec2) : Prop :=
  inject_Z (Z.of_nat (length pts)) * fst com == tsum (map fst pts) /\
  inject_Z (Z.of_nat (length pts)) * snd com == tsum (map snd pts).

(** [q] is [A[:2]*p + (A[2:] - (A[:2]-1)*com)]. *)
Definition warped_to (A : vec4) (com p q : vec2) : Prop :=
  fst q == fst (fst A) * fst p + (fst (snd A) - (fst (fst A) - 1) * fst com) /\
  snd q == snd (fst A) * snd p + (snd (snd A) - (snd (fst A) - 1) * snd com).


(** The attach index names one of the previous parts. *)
Definition prior (ix : Z) (prev_parts : list PartToken) : Prop :=
  (0 <= ix < Z.of_nat (length prev_parts))%Z.

(** What [get_attach_point] does with the previous part [prev] it has
    picked, for a relation that is not independent. *)
Definition attach_to (bspline_eval : Q -> list vec2 -> result vec2)
  (tok : token) (prev : PartToken) : result vec2 :=
  let r := rel tok in
  if String.eqb (category r) "start" then
    subtraj <-- py_index (motor prev) 0 ;;
    py_index subtraj 0
  else if String.eqb (category r) "end" then
    subtraj <-- py_index (motor prev) (-1) ;;
    py_index subtraj (-1)
  else
    _ <-- assert (String.eqb (category r) "mid") ;;
    match r with
    | AttachAlong _ _ _ attach_subix _ _ _ =>
        bspline <-- py_index (motor_spline prev) attach_subix ;;
        match eval_spot_token tok with
        | Some t => bspline_eval t bspline
        | None => Raise AttributeError
        end
    | _ => Raise AttributeError
    end.

(** * Instances used by the examples *)

(** A part of one sub-stroke from (1,2) to (3,4), and a stand-in for the
    spline evaluation that answers with the first control point. *)
Definition one_part : PartToken :=
  {| motor := [[(1, 2); (3, 4)]]; motor_spline := [[(1, 2); (3, 4)]] |}.

Definition first_cpt (sval : Q) (cpts : list vec2) : result vec2 :=
  index cpts 0.


(** A stand-in for the spline module: the bounds 2 and [nland+1], and
    no evaluation points. *)
Definition gen_s_bounds (nland neval : nat) : list Q * Q * Q :=
  ([], 2, inject_Z (Z.of_nat nland) + 1).

(** The quadratic part of the normal log-density. *)
Definition quad_log_prob (d : Normal) (x : Q) : xnum :=
  Fin (- ((x - loc d) * (x - loc d)) / (2 * scale d * scale d)).

(** A piecewise linear distribution function around the mean. *)
Definition ramp_cdf (d : Normal) (x : Q) : Q :=
  Qmax 0 (Qmin 1 ((1 # 2) + (x - loc d) / (4 * scale d))).

(** A logarithm that is right at 1 and at 0 and linear in between. *)
Definition rough_log (p : Q) : xnum :=
  if Qltb p 0 then NaN
  else if Qle_bool p 0 then NInf
  else Fin (p - 1).

(** Draws that start outside the range and walk into it: 9, 7, 5, 3, ... *)
Definition walk_in (d : Normal) (n : nat) : Q :=
  9 - 2 * inject_Z (Z.of_nat n).

Definition small_lib : Library :=
  {| sigma_x := 1; sigma_y := 1; lib_ncpt := 5; lib_sigma_attach := 1 |}.


(** A stand-in for the spline evaluator: [neval] points, the first
    control point moved one unit to the right at each step. *)
Definition line_stk (Y : list vec2) (neval : nat) : list vec2 :=
  map (fun k => vadd (default (0, 0) (head Y)) (inject_Z (Z.of_nat k), 0))
    (seq 0 neval).

(** A square root to ten binary digits. *)
Definition sqrt_approx (x : Q) : Q :=
  inject_Z (Z.sqrt (Qfloor (x * 1048576))) / 1024.

(** Row-major indexing. *)
Definition sub2ind_rm (shape : nat * nat) (r c : Z) : Z :=
  (r * Z.of_nat (snd shape) + c)%Z.

(** A filter that leaves the image as it is, and a one-pixel kernel. *)
Definition no_filter (pimg : image) (H : list (list Q)) : image := pimg.
Definition unit_kernel (hsize : nat) (sigma : Q) : list (list Q) := [[1]].

(** Four adding points: two on the pixel (0,1), one on (1,0), one off
    the image. *)
Definition dup_points : list adding_point :=
  [(0, 1, 1 # 2); (1, 0, 3); (0, 1, 1 # 4); (5, 5, 7)].

(** A stand-in for the spline evaluator of a stroke that stays at its
    first control point. *)
Definition still_stk (Y : list vec2) (neval : nat) : list vec2 :=
  replicate neval (default (0, 0) (head Y)).

(** A sum that is rounded once, which is the float32 sum of two
    entries. *)
Definition sum_once (l : list Q) : Q := F32.round (tsum l).

(** The unit roundoff of float32. *)
Definition u32 : Q := 1 # 16777216.

(** A 3x3 page with two units of ink per point. *)
Definition small_page : defaultps :=
  {| imsize := (3, 3)%nat; ink_pp := 2; ink_max_dist := 2;
     ink_a := 1 # 2; ink_b := 6; ink_ncon := 2; fsize := 11 |}.

(** * Properties *)

(** ** Generic facts: results, indexing, points *)


Lemma veq_sym p q : p =v= q -> q =v= p.
Proof. intros [? ?]; split; symmetry; assumption. Qed.

Lemma veq_trans p q r : p =v= q -> q =v= r -> p =v= r.
Proof. intros [? ?] [? ?]; split; etransitivity; eassumption. Qed.

Lemma vsub_offset_cancel (t p : vec2) : vsub t (vsub t p) =v= p.
Proof. destruct t, p; split; simpl; ring. Qed.

Lemma index_lookup {A : Type} (l : list A) (i : nat) (a : A) :
  l !! i = Some a -> index l i = Ok a.
Proof. unfold index; intros ->; reflexivity. Qed.

Lemma py_index_last {A : Type} (l : list A) (a : A) :
  last l = Some a -> py_index l (-1) = Ok a.
Proof.
  intros Hl. unfold py_index.
  assert (Hlen : (0 < length l)%nat).
  { destruct l; [discriminate | simpl; lia]. }
  replace (0 <=? -1)%Z with false by reflexivity.
  replace (- Z.of_nat (length l) <=? -1)%Z with true
    by (symmetry; apply Z.leb_le; lia).
  rewrite last_lookup in Hl.
  replace (Z.to_nat (Z.of_nat (length l) + -1)) with (Nat.pred (length l))
    by lia.
  now apply index_lookup.
Qed.

(** ** The rounding of float32 *)

Lemma rne_error (y : Q) : Qabs (inject_Z (F32.rne y) - y) <= 1 # 2.
Proof.
  unfold F32.rne. cbv zeta.
  pose proof (Qfloor_le y) as Hl. pose proof (Qlt_floor y) as Hu.
  rewrite inject_Z_plus in Hu. change (inject_Z 1) with 1 in Hu.
  apply Qabs_Qle_condition.
  destruct (Qcompare (y - inject_Z (Qfloor y)) (1 # 2)) eqn:Hc.
  - apply Qeq_alt in Hc.
    destruct (Z.even (Qfloor y)); rewrite ?inject_Z_plus;
      change (inject_Z 1) with 1; split; lra.
  - apply Qlt_alt in Hc. split; lra.
  - apply Qgt_alt in Hc. rewrite inject_Z_plus. change (inject_Z 1) with 1.
    split; lra.
Qed.

Lemma pow2_pos (e : Z) : 0 < 2 ^ e.
Proof. apply Qpower_0_lt. reflexivity. Qed.

Lemma ilog2_le (x : Q) : ~ x == 0 -> 2 ^ F32.ilog2 x <= Qabs x.
Proof.
  intros Hx. unfold F32.ilog2. cbv zeta.
  destruct (Qle_bool _ _) eqn:Hb; [now apply Qle_bool_iff in Hb |].
  clear Hb. destruct x as [n d]. cbn [Qnum Qden].
  assert (Hn : (0 < Z.abs n)%Z).
  { destruct (Z.eq_dec n 0%Z) as [-> | ?];
      [exfalso; apply Hx; reflexivity | lia]. }
  pose proof (Z.log2_spec _ Hn) as [Ha _].
  pose proof (Z.log2_spec (Zpos d) (Pos2Z.is_pos d)) as [_ Hb].
  pose proof (Z.log2_nonneg (Z.abs n)) as Ha0.
  pose proof (Z.log2_nonneg (Zpos d)) as Hb0.
  set (a := Z.log2 (Z.abs n)) in *. set (b := Z.log2 (Zpos d)) in *.
  replace (a - b - 1)%Z with (a - (b + 1))%Z by lia.
  rewrite Qpower_minus by discriminate.
  rewrite <- !(Zpower_Qpower 2) by lia.
  change (Qabs (n # d)) with (Z.abs n # d).
  assert (H2b : inject_Z 0 < inject_Z (2 ^ (b + 1)))
    by (rewrite <- Zlt_Qlt; lia).
  apply Qle_shift_div_r; [exact H2b |].
  unfold Qle, Qmult, inject_Z. cbn [Qnum Qden].
  rewrite Z.mul_1_r, Pos.mul_1_r.
  transitivity (Z.abs n * Z.pos d)%Z; nia.
Qed.

(** The relative error of the rounding is at most the unit roundoff. *)
Lemma round_error (x : Q) : Qabs (F32.round x - x) <= u32 * Qabs x.
Proof.
  unfold F32.round, u32. cbv zeta.
  assert (Hr : Qred x == x) by apply Qred_correct.
  destruct (Qeq_bool (Qred x) 0) eqn:He.
  - apply Qeq_bool_iff in He. rewrite <- Hr, He.
    apply Qle_bool_imp_le. reflexivity.
  - assert (Hx : ~ Qred x == 0).
    { intros H. apply Qeq_bool_iff in H. congruence. }
    set (x' := Qred x) in *.
    pose proof (ilog2_le x' Hx) as Hlog.
    set (e := (F32.ilog2 x' - 23)%Z).
    pose proof (pow2_pos e) as HP.
    pose proof (rne_error (x' / 2 ^ e)) as Hrne.
    replace (F32.ilog2 x') with (e + 23)%Z in Hlog by (unfold e; lia).
    rewrite Qpower_plus in Hlog by discriminate.
    change (2 ^ 23) with 8388608 in Hlog.
    rewrite <- Hr.
    set (P := 2 ^ e) in *. set (r := inject_Z (F32.rne (x' / P))) in *.
    assert (Heq : r * P - x' == (r - x' / P) * P) by (field; lra).
    rewrite Heq, Qabs_Qmult, (Qabs_pos P) by lra.
    apply Qle_trans with ((1 # 2) * P).
    + apply Qmult_le_compat_r; [exact Hrne | lra].
    + lra.
Qed.

Lemma round_proper (x y : Q) : x == y -> F32.round x == F32.round y.
Proof.
  intros H. unfold F32.round. now rewrite (Qred_complete x y H).
Qed.

(** With the identity as rounding the float32 model of
    [vanilla_to_motor] is the exact one. *)
Lemma vanilla_to_motor_unrounded get_stk shapes invscales first_pos neval :
  F32.vanilla_to_motor (fun x => x) get_stk shapes invscales first_pos neval
  = vanilla_to_motor get_stk shapes invscales first_pos neval.
Proof. reflexivity. Qed.

(** ** vanilla_to_motor: the sub-strokes form a chain *)

Lemma linked_first J i start rows row :
  linked J i start rows -> rows !! 0%nat = Some row ->
  exists p, head row = Some p /\ J i start p.
Proof.
  destruct rows as [|r rows]; [discriminate |].
  intros (p & q & Hp & _ & Hs & _) [= <-]. eauto.
Qed.

Lemma linked_step J i0 start rows i row row' :
  linked J i0 start rows -> rows !! i = Some row -> rows !! S i = Some row' ->
  exists q p, last row = Some q /\ head row' = Some p /\ J (i0 + S i)%nat q p.
Proof.
  revert i0 start i. induction rows as [|r rows IH]; intros i0 start i Hc Hi Hi'.
  - discriminate.
  - destruct Hc as (p & q & Hp & Hq & Hs & Hc).
    destruct i as [|i]; simpl in Hi, Hi'.
    + injection Hi as <-.
      destruct (linked_first _ _ _ _ _ Hc Hi') as (p' & Hp' & Hv).
      exists q, p'. replace (i0 + 1)%nat with (S i0) by lia. auto.
    + destruct (IH (S i0) q i Hc Hi Hi') as (q' & p' & Hq' & Hp' & HJ).
      exists q', p'. replace (i0 + S (S i))%nat with (S i0 + S i)%nat by lia.
      auto.
Qed.

Section MotorProperties.

(** The rounding of a float32 operation has a relative error of at most
    [u], and gives equal results on equal numbers. *)
Variable fl : Q -> Q.
Variable u : Q.
Hypothesis fl_error : forall x, Qabs (fl x - x) <= u * Qabs x.
Hypothesis fl_proper : forall x y, x == y -> fl x == fl y.

Variable get_stk : list vec2 -> nat -> list vec2.

(** The spline evaluator returns as many points as it is asked for. *)
Hypothesis get_stk_length : forall Y neval, length (get_stk Y neval) = neval.

Lemma roundoff_nonneg : 0 <= u.
Proof using fl_error.
  pose proof (fl_error 1) as H. pose proof (Qabs_nonneg (fl 1 - 1)) as H0.
  change (Qabs 1) with 1 in H. lra.
Qed.

Lemma repositioned_coordinate (a b : Q) :
  Qabs (fl (a - fl (a - b)) - b) <= u * (1 + u) * Qabs (a - b) + u * Qabs b.
Proof using fl_error.
  pose proof roundoff_nonneg as Hu.
  pose proof (fl_error (a - b)) as H1.
  pose proof (fl_error (a - fl (a - b))) as H2.
  set (o := fl (a - b)) in *. set (z := a - o) in *.
  pose proof (Qabs_nonneg (a - b)) as Hd0.
  pose proof (Qabs_nonneg b) as Hb0.
  set (Ad := Qabs (a - b)) in *. set (Ab := Qabs b) in *.
  assert (Hz : Qabs z <= Ab + u * Ad).
  { apply Qabs_Qle_condition in H1. apply Qabs_Qle_condition.
    pose proof (Qle_Qabs b) as Hb1. pose proof (Qle_Qabs (- b)) as Hb2.
    rewrite Qabs_opp in Hb2. fold Ab in Hb1, Hb2. unfold z. split; lra. }
  assert (H3 : u * Qabs z <= u * (Ab + u * Ad)).
  { rewrite (Qmult_comm u (Qabs z)), (Qmult_comm u (Ab + u * Ad)).
    apply Qmult_le_compat_r; assumption. }
  apply Qabs_Qle_condition in H1, H2. apply Qabs_Qle_condition.
  unfold z in *. split; lra.
Qed.

Lemma repositioned_near t0 prev : near u t0 prev (repositioned fl t0 prev).
Proof using fl_error. split; apply repositioned_coordinate. Qed.

Lemma repositioned_exact t0 prev :
  exact_offset fl t0 prev -> repositioned fl t0 prev =v= prev.
Proof using fl_proper.
  intros [[Hx Hpx] [Hy Hpy]]. unfold repositioned, F32.fsub. cbn [fst snd].
  split; cbn [fst snd].
  - rewrite <- Hpx at 2. apply fl_proper. rewrite Hx. ring.
  - rewrite <- Hpy at 2. apply fl_proper. rewrite Hy. ring.
Qed.

Local Abbreviation J shapes invscales neval :=
  (joined fl u get_stk shapes invscales neval).

Lemma motor_body_ok shapes invscales neval motor motor_spline prev i :
  (0 < neval)%nat -> (i < length shapes)%nat -> (i < length invscales)%nat ->
  exists row ms p q,
    F32.motor_body fl get_stk shapes invscales neval (motor, motor_spline, prev)
      i = Ok (<[i := row]> motor, ms, q) /\
    length ms = length motor_spline /\
    head row = Some p /\ last row = Some q /\
    J shapes invscales neval i prev p.
Proof using get_stk_length fl_error fl_proper.
  intros Hn Hi Hs.
  destruct (lookup_lt_is_Some_2 shapes i Hi) as [sh Hsh].
  destruct (lookup_lt_is_Some_2 invscales i Hs) as [s Hsc].
  unfold F32.motor_body.
  rewrite (index_lookup _ _ _ Hsc), (index_lookup _ _ _ Hsh). cbn [bind].
  assert (Hstart : spline_start fl get_stk shapes invscales neval i
                   = head (get_stk (map (F32.fscale fl s) sh) neval)).
  { unfold spline_start. now rewrite Hsc, Hsh. }
  set (traj := get_stk (map (F32.fscale fl s) sh) neval) in *.
  assert (Hlen : length traj = neval) by apply get_stk_length.
  destruct traj as [|t0 traj'] eqn:Etraj; [simpl in Hlen; lia |].
  cbn [index lookup list_lookup bind].
  set (offset := F32.fsub fl t0 prev).
  set (row := map (fun p => F32.fsub fl p offset) (t0 :: traj')).
  assert (Hrow : length row = neval) by (unfold row; now rewrite length_map).
  unfold assign_row. rewrite Hrow, Nat.eqb_refl. cbn [bind].
  destruct (last row) as [q|] eqn:Hq.
  2:{ apply last_None in Hq. rewrite Hq in Hrow. simpl in Hrow. lia. }
  rewrite (py_index_last _ _ Hq). cbn [bind].
  eexists row, _, (repositioned fl t0 prev), q. split; [reflexivity |].
  split; [now rewrite length_insert |].
  split; [reflexivity |]. split; [exact Hq |].
  exists t0. split; [exact Hstart |]. split; [reflexivity |].
  split; [apply repositioned_near | apply repositioned_exact].
Qed.

Lemma motor_loop_linked shapes invscales neval m :
  forall k motor motor_spline prev,
    (0 < neval)%nat ->
    (k + m <= length shapes)%nat -> (k + m <= length invscales)%nat ->
    (k + m <= length motor)%nat ->
    exists motor' ms' prev',
      for_each (F32.motor_body fl get_stk shapes invscales neval) (seq k m)
        (motor, motor_spline, prev) = Ok (motor', ms', prev') /\
      length motor' = length motor /\
      take k motor' = take k motor /\
      linked (J shapes invscales neval) k prev (take m (drop k motor')).
Proof using get_stk_length fl_error fl_proper.
  induction m as [|m IH]; intros k motor motor_spline prev Hn Hsh Hsc Hm.
  - exists motor, motor_spline, prev. simpl. repeat split; try reflexivity.
  - destruct (motor_body_ok shapes invscales neval motor motor_spline prev k)
      as (row & ms & p & q & Hbody & Hms & Hp & Hq & Hpq); try lia.
    destruct (IH (S k) (<[k := row]> motor) ms q) as
      (motor' & ms' & prev' & Hloop & Hlen & Htake & Hch);
      try (rewrite ?length_insert; lia).
    exists motor', ms', prev'.
    cbn [seq for_each]. rewrite Hbody. cbn [bind]. rewrite Hloop.
    rewrite length_insert in Hlen.
    split; [reflexivity |]. split; [assumption |].
    assert (Hk : motor' !! k = Some row).
    { rewrite <- (lookup_take_lt motor' (S k) k) by lia. rewrite Htake.
      rewrite lookup_take_lt by lia. apply list_lookup_insert_eq. lia. }
    split.
    + replace (take k motor') with (take k (take (S k) motor'))
        by (rewrite take_take; f_equal; lia).
      rewrite Htake, take_take. replace (k `min` S k)%nat with k by lia.
      apply take_insert_ge; lia.
    + rewrite (drop_S _ _ _ Hk). cbn [take linked].
      exists p, q. auto.
Qed.

(** The call returns, and its trajectories are linked from [first_pos]
    on. *)
Lemma vanilla_to_motor_linked shapes invscales first_pos neval :
  (length shapes <= length invscales)%nat -> (0 < neval)%nat ->
  exists motor motor_spline,
    F32.vanilla_to_motor fl get_stk shapes invscales first_pos neval
      = Ok (motor, motor_spline) /\
    length motor = length shapes /\
    linked (J shapes invscales neval) 0 first_pos motor.
Proof using get_stk_length fl_error fl_proper.
  intros Hinv Hn. unfold F32.vanilla_to_motor.
  destruct (motor_loop_linked shapes invscales neval (length shapes) 0%nat
              (replicate (length shapes) (replicate neval (0, 0)))
              (map (map (fun _ => (0, 0))) shapes) first_pos)
    as (motor' & ms' & prev' & Hloop & Hlen & _ & Hch);
    rewrite ?length_replicate; try lia.
  cbv zeta. rewrite Hloop. cbn [bind fst snd].
  rewrite length_replicate in Hlen.
  rewrite drop_0, <- Hlen, firstn_all in Hch.
  exists motor', ms'. auto.
Qed.

(** C1, amended. For every valid input (float32 tensors, one inverse
    scale per sub-stroke, at least one evaluation point, an evaluator
    that returns [neval] points) [vanilla_to_motor] returns; the first
    point of the first trajectory is [t0 - (t0 - first_pos)] as two
    float32 subtractions give it, with [t0] the start of the spline, and
    the first point of sub-stroke [i+1] is the same expression of the
    last point of sub-stroke [i].  Such a point lies within
    [u(1+u)|t0 - prev| + u|prev|] of the position [prev] it is moved to,
    on both coordinates, and equals it when the offset [t0 - prev] is
    computed without error. *)
Theorem vanilla_to_motor_connected shapes invscales first_pos neval :
  length invscales = length shapes -> (0 < neval)%nat ->
  exists motor motor_spline,
    F32.vanilla_to_motor fl get_stk shapes invscales first_pos neval
      = Ok (motor, motor_spline) /\
    length motor = length shapes /\
    (forall row, motor !! 0%nat = Some row ->
       exists t0 p,
         spline_start fl get_stk shapes invscales neval 0 = Some t0 /\
         head row = Some p /\
         p = repositioned fl t0 first_pos /\
         near u t0 first_pos p /\
         (exact_offset fl t0 first_pos -> p =v= first_pos)) /\
    (forall i row row', motor !! i = Some row -> motor !! S i = Some row' ->
       exists q t0 p,
         last row = Some q /\
         spline_start fl get_stk shapes invscales neval (S i) = Some t0 /\
         head row' = Some p /\
         p = repositioned fl t0 q /\
         near u t0 q p /\
         (exact_offset fl t0 q -> q =v= p)).
Proof using get_stk_length fl_error fl_proper.
  intros Hinv Hn.
  destruct (vanilla_to_motor_linked shapes invscales first_pos neval)
    as (motor & ms & Hv & Hlen & Hch); [lia | exact Hn |].
  exists motor, ms. split; [exact Hv |]. split; [exact Hlen |]. split.
  - intros row Hrow.
    destruct (linked_first _ _ _ _ _ Hch Hrow)
      as (p & Hp & t0 & Ht0 & Hrep & Hnear & Hex).
    exists t0, p. auto.
  - intros i row row' Hi Hi'.
    destruct (linked_step _ _ _ _ _ _ _ Hch Hi Hi')
      as (q & p & Hq & Hp & t0 & Ht0 & Hrep & Hnear & Hex).
    exists q, t0, p. repeat split; try assumption.
    + apply Hnear.
    + apply Hnear.
    + apply veq_sym, Hex; assumption.
    + apply veq_sym, Hex; assumption.
Qed.

End MotorProperties.

Lemma line_stk_length Y neval : length (line_stk Y neval) = neval.
Proof. unfold line_stk. now rewrite length_map, length_seq. Qed.

Lemma still_stk_length Y neval : length (still_stk Y neval) = neval.
Proof. unfold still_stk. apply length_replicate. Qed.

Lemma vanilla_to_motor_connected_witness :
  exists motor motor_spline,
    F32.vanilla_to_motor F32.round line_stk
      [[(0, 0); (1, 1)]; [(5, 5); (2, 0)]] [1; 2] (3, 4) 3
      = Ok (motor, motor_spline) /\
    length motor = 2%nat /\
    (forall row, motor !! 0%nat = Some row ->
       exists t0 p,
         spline_start F32.round line_stk [[(0, 0); (1, 1)]; [(5, 5); (2, 0)]]
           [1; 2] 3 0 = Some t0 /\
         head row = Some p /\
         p = repositioned F32.round t0 (3, 4) /\
         near u32 t0 (3, 4) p /\
         (exact_offset F32.round t0 (3, 4) -> p =v= (3, 4))) /\
    (forall i row row', motor !! i = Some row -> motor !! S i = Some row' ->
       exists q t0 p,
         last row = Some q /\
         spline_start F32.round line_stk [[(0, 0); (1, 1)]; [(5, 5); (2, 0)]]
           [1; 2] 3 (S i) = Some t0 /\
         head row' = Some p /\
         p = repositioned F32.round t0 q /\
         near u32 t0 q p /\
         (exact_offset F32.round t0 q -> q =v= p)).
Proof.
  apply (vanilla_to_motor_connected F32.round u32 round_error round_proper
           line_stk line_stk_length
           [[(0, 0); (1, 1)]; [(5, 5); (2, 0)]] [1; 2] (3, 4) 3);
    [reflexivity | lia].
Defined.

(** The claim C1 fails on a spline far from the starting position: for
    a stroke whose five control points are at (2^25, 0) and that is to
    start at (1/2, 0) the offset 2^25 - 1/2 rounds to 2^25, and the
    trajectory starts at (0, 0). *)
Lemma vanilla_to_motor_rounding_gap :
  exists motor motor_spline row p,
    F32.vanilla_to_motor F32.round still_stk
      [replicate 5 (33554432, 0)] [1] (1 # 2, 0) 2
      = Ok (motor, motor_spline) /\
    motor !! 0%nat = Some row /\ head row = Some p /\
    p =v= (0, 0) /\ ~ p =v= (1 # 2, 0).
Proof.
  eexists _, _, _, _. split; [vm_compute; reflexivity |].
  split; [reflexivity |]. split; [reflexivity |].
  split; [split; reflexivity |].
  intros [Hx _]. vm_compute in Hx. discriminate.
Qed.

(** Where the subtractions are exact the float32 trajectories are the
    exact ones. *)
Example vanilla_to_motor_rounded_line :
  exists motor motor_spline,
    F32.vanilla_to_motor F32.round line_stk
      [[(0, 0); (1, 1)]; [(5, 5); (2, 0)]] [1; 2] (3, 4) 3
      = Ok (motor, motor_spline) /\
    Forall2 (Forall2 veq) motor
      [[(3, 4); (4, 4); (5, 4)]; [(5, 4); (6, 4); (7, 4)]].
Proof.
  eexists _, _. split; [vm_compute; reflexivity |].
  repeat (constructor; try (split; reflexivity)).
Qed.

(** On this input the two trajectories are (3,4) (4,4) (5,4) and
    (5,4) (6,4) (7,4). *)
Example vanilla_to_motor_line :
  vanilla_to_motor line_stk [[(0, 0); (1, 1)]; [(5, 5); (2, 0)]] [1; 2]
    (3, 4) 3
  = Ok ([[(3, 4); (4, 4); (5, 4)]; [(5, 4); (6, 4); (7, 4)]],
        [[(3, 4); (4, 5)]; [(5, 4); (-1, -6)]]).
Proof. vm_compute. reflexivity. Qed.

(** ** apply_warp *)

Lemma same_neval_uniform {A : Type} (rows : list (list A)) (n : nat) :
  Forall (fun r => length r = n) rows -> same_neval rows = true.
Proof.
  intros H. destruct H as [|r rows Hr Hrows]; [reflexivity |].
  cbn [same_neval]. apply forallb_forall. intros r' Hin.
  rewrite Forall_forall in Hrows. apply list_elem_of_In in Hin.
  rewrite (Hrows r' Hin), Hr. apply Nat.eqb_refl.
Qed.

Lemma cat_uniform {A : Type} (tensors : list (list (list A))) (n : nat) :
  tensors <> [] -> Forall (Forall (fun r => length r = n)) tensors ->
  cat tensors = Ok (concat tensors).
Proof.
  intros Hne Hu. unfold cat. destruct tensors as [|t ts]; [congruence |].
  rewrite (same_neval_uniform _ n); [reflexivity |].
  now apply Forall_concat.
Qed.

Lemma Forall2_map_self {A B : Type} (R : A -> B -> Prop) (f : A -> B)
  (l : list A) :
  (forall x, R x (f x)) -> Forall2 R l (map f l).
Proof. intros H. induction l; constructor; auto. Qed.

Lemma tsum_affine {A : Type} (g : A -> Q) (a b : Q) (l : list A) :
  tsum (map (fun p => a * g p + b) l)
  == a * tsum (map g l) + inject_Z (Z.of_nat (length l)) * b.
Proof.
  induction l as [|p l IH]; [cbn; ring |].
  cbn [map tsum foldr length]. fold (tsum (map (fun p => a * g p + b) l)).
  fold (tsum (map g l)). rewrite IH, Nat2Z.inj_succ, <- Z.add_1_r.
  rewrite inject_Z_plus. change (inject_Z 1) with 1. ring.
Qed.

Lemma points_of_map (f : vec2 -> vec2) (motor : list (list (list vec2))) :
  points_of (map (map (map f)) motor) = map f (points_of motor).
Proof.
  unfold points_of.
  transitivity (concat (map (map f) (concat motor))).
  - f_equal. induction motor as [|stk motor IH]; [reflexivity |].
    cbn [map concat]. now rewrite map_app, IH.
  - induction (concat motor) as [|sub subs IH]; [reflexivity |].
    cbn [map concat]. now rewrite map_app, IH.
Qed.

(** C8. On a list of strokes of at least one sub-stroke each, all with
    the same positive number of points, [apply_warp] returns; with [com]
    the center of mass of all the points of all the strokes, every point
    [p] of every stroke is mapped to
    [A[:2]*p + (A[2:] - (A[:2]-1)*com)]; with zero translation the
    warped strokes have the same center of mass, and [com] is mapped to
    itself. *)
Theorem apply_warp_anchored (motor_unwarped : list (list (list vec2)))
  (A : vec4) (neval : nat) :
  motor_unwarped <> [] ->
  Forall (fun stk => stk <> []) motor_unwarped ->
  (0 < neval)%nat ->
  Forall (Forall (fun sub => length sub = neval)) motor_unwarped ->
  exists com warped,
    center_of_mass (points_of motor_unwarped) com /\
    apply_warp motor_unwarped A = Ok warped /\
    Forall2 (Forall2 (Forall2 (warped_to A com))) motor_unwarped warped /\
    (snd A =v= (0, 0) ->
     center_of_mass (points_of warped) com /\ warped_to A com com com).
Proof.
  intros Hne Hsub Hn Hu.
  set (pts := points_of motor_unwarped).
  set (N := inject_Z (Z.of_nat (length pts))).
  assert (HN : 0 < N).
  { unfold N, pts, points_of. change 0 with (inject_Z 0).
    rewrite <- Zlt_Qlt.
    destruct motor_unwarped as [|stk motor]; [congruence |].
    inversion Hsub as [|? ? Hstk _]; subst.
    inversion Hu as [|? ? Hustk _]; subst.
    destruct stk as [|sub stk]; [congruence |].
    inversion Hustk as [|? ? Hl _]; subst.
    cbn [concat app]. rewrite length_app. lia. }
  set (com := com_char (concat motor_unwarped)).
  assert (Hcom : center_of_mass pts com).
  { unfold center_of_mass, com, com_char, mean_pt. fold (points_of motor_unwarped).
    fold pts. fold N. cbn [fst snd]. split; field; lra. }
  set (B_hi := vsub (snd A) (vmul (vsub (fst A) (1, 1)) com)).
  set (f := fun point : vec2 => vadd (vmul (fst A) point) B_hi).
  assert (Hwarp : apply_warp motor_unwarped A
                  = Ok (map (map (map f)) motor_unwarped)).
  { unfold apply_warp. rewrite (cat_uniform _ neval Hne Hu). reflexivity. }
  exists com, (map (map (map f)) motor_unwarped).
  split; [exact Hcom |]. split; [exact Hwarp |]. split.
  - apply Forall2_map_self. intros stk. apply Forall2_map_self. intros sub.
    apply Forall2_map_self. intros p. unfold warped_to, f, B_hi.
    destruct A as [[sx sy] [tx ty]], com as [cx cy], p as [px py].
    unfold vadd, vmul, vsub. cbn [fst snd]. split; reflexivity.
  - intros [Hx Hy]. split.
    + rewrite points_of_map. fold pts. destruct Hcom as [Hcx Hcy].
      unfold center_of_mass. rewrite length_map, !map_map. fold N.
      unfold f, B_hi. destruct A as [[sx sy] [tx ty]], com as [cx cy].
      unfold vadd, vmul, vsub in *. cbn [fst snd] in *.
      rewrite (tsum_affine fst sx), (tsum_affine snd sy).
      rewrite <- Hcx, <- Hcy, Hx, Hy. unfold N. split; ring.
    + unfold warped_to. clearbody com. destruct A as [[sx sy] [tx ty]].
      destruct com as [cx cy]. cbn [fst snd] in *. rewrite Hx, Hy.
      split; ring.
Qed.

Lemma apply_warp_anchored_witness :
  exists com warped,
    center_of_mass
      (points_of [[[(0, 0); (2, 0)]; [(2, 2); (0, 2)]]; [[(1, 0); (1, 2)]]])
      com /\
    apply_warp [[[(0, 0); (2, 0)]; [(2, 2); (0, 2)]]; [[(1, 0); (1, 2)]]]
      ((2, 3), (0, 0)) = Ok warped /\
    Forall2 (Forall2 (Forall2 (warped_to ((2, 3), (0, 0)) com)))
      [[[(0, 0); (2, 0)]; [(2, 2); (0, 2)]]; [[(1, 0); (1, 2)]]] warped /\
    center_of_mass (points_of warped) com /\
    warped_to ((2, 3), (0, 0)) com com com.
Proof.
  destruct (apply_warp_anchored
              [[[(0, 0); (2, 0)]; [(2, 2); (0, 2)]]; [[(1, 0); (1, 2)]]]
              ((2, 3), (0, 0)) 2)
    as (com & warped & Hcom & Hw & Hmap & Hfix).
  - discriminate.
  - repeat constructor; discriminate.
  - lia.
  - repeat constructor.
  - exists com, warped. split; [exact Hcom |]. split; [exact Hw |].
    split; [exact Hmap |]. apply Hfix. split; reflexivity.
Defined.

(** The center of mass of the six points (0,0) (2,0) (2,2) (0,2) (1,0)
    (1,2) is (1,1), and the warp with scale (2,3) keeps it in place;
    strokes that differ in their number of points cannot be
    concatenated. *)
Example apply_warp_square :
  com_char [[(0, 0); (2, 0)]; [(2, 2); (0, 2)]; [(1, 0); (1, 2)]] =v= (1, 1) /\
  (exists warped,
     apply_warp [[[(0, 0); (2, 0)]; [(2, 2); (0, 2)]]; [[(1, 0); (1, 2)]]]
       ((2, 3), (0, 0)) = Ok warped /\
     Forall2 (Forall2 (Forall2 veq)) warped
       [[[(-1, -2); (3, -2)]; [(3, 4); (-1, 4)]]; [[(1, -2); (1, 4)]]]) /\
  apply_warp [[[(0, 0); (2, 0)]; [(2, 2)]]; [[(0, 2)]]] ((2, 3), (0, 0))
    = Raise RuntimeError.
Proof.
  split; [split; reflexivity |]. split; [| reflexivity].
  eexists. split; [reflexivity |].
  repeat (constructor; try (split; reflexivity)).
Qed.

(** ** Comparisons, floor and ceiling *)

Lemma Qltb_lt x y : Qltb x y = true <-> x < y.
Proof.
  unfold Qltb. rewrite negb_true_iff, <- not_true_iff_false, Qle_bool_iff.
  split; [apply Qnot_le_lt | apply Qlt_not_le].
Qed.

Lemma Qltb_ge x y : Qltb x y = false <-> y <= x.
Proof.
  unfold Qltb. rewrite negb_false_iff, Qle_bool_iff. reflexivity.
Qed.

Lemma inject_Z_lt a b : inject_Z a < inject_Z b <-> (a < b)%Z.
Proof. rewrite <- Zlt_Qlt. reflexivity. Qed.

(** ** Masks and parallel tensors *)

Lemma check_bounds_map myt imsize :
  check_bounds myt imsize = map (out_of_bounds imsize) myt.
Proof.
  unfold check_bounds. induction myt as [|p myt IH]; [reflexivity |].
  cbn [map zip_with]. f_equal. exact IH.
Qed.

Lemma mask_select_map {A B : Type} (f : A -> B) (l : list A) (m : list bool) :
  mask_select (map f l) m = map f (mask_select l m).
Proof.
  revert m. induction l as [|a l IH]; intros [|b m]; try reflexivity.
  cbn [map mask_select]. destruct b; cbn [map]; now rewrite IH.
Qed.

Lemma mask_select_filter {A : Type} (g : A -> bool) (l : list A) :
  mask_select l (map g l) = List.filter g l.
Proof.
  induction l as [|a l IH]; [reflexivity |].
  cbn [map mask_select List.filter]. destruct (g a); now rewrite IH.
Qed.

Lemma where_zero (i : Z) (lind : list Z) (inkval : list Q) :
  tsum (where_ (map (Z.eqb i) lind) inkval (map (fun _ => 0) inkval))
  = wsum i (zip lind inkval).
Proof.
  unfold wsum, where_. f_equal.
  revert inkval. induction lind as [|l lind IH]; intros [|v inkval];
    try reflexivity.
  cbn [map zip zip_with fst snd]. f_equal. apply IH.
Qed.

(** ** torch.unique *)



Lemma elem_of_insert_unique x a l :
  x ∈ insert_unique a l <-> x = a \/ x ∈ l.
Proof.
  induction l as [|b l IH]; cbn [insert_unique].
  - rewrite list_elem_of_singleton, elem_of_nil. tauto.
  - destruct (Z.ltb_spec a b); [| destruct (Z.eqb_spec a b)].
    + rewrite elem_of_cons. tauto.
    + subst. rewrite elem_of_cons. tauto.
    + rewrite !elem_of_cons, IH. tauto.
Qed.

Lemma elem_of_unique x l : x ∈ unique l <-> x ∈ l.
Proof.
  unfold unique. induction l as [|a l IH]; cbn [foldr]; [reflexivity |].
  rewrite elem_of_insert_unique, elem_of_cons, IH. reflexivity.
Qed.

Lemma insert_unique_sorted a l :
  StronglySorted Z.lt l -> StronglySorted Z.lt (insert_unique a l).
Proof.
  induction 1 as [|b l Hs IH Hb]; cbn [insert_unique].
  - repeat constructor.
  - destruct (Z.ltb_spec a b); [| destruct (Z.eqb_spec a b)].
    + constructor; [now constructor |].
      constructor; [assumption |].
      eapply Forall_impl; [exact Hb |]. intros; simpl in *; lia.
    + now constructor.
    + constructor; [assumption |].
      apply Forall_forall. intros x Hx.
      apply elem_of_insert_unique in Hx as [-> | Hx]; [lia |].
      rewrite Forall_forall in Hb. now apply Hb.
Qed.

Lemma unique_sorted l : StronglySorted Z.lt (unique l).
Proof.
  unfold unique. induction l as [|a l IH]; cbn [foldr]; [constructor |].
  now apply insert_unique_sorted.
Qed.

Lemma unique_NoDup l : NoDup (unique l).
Proof.
  induction (unique_sorted l) as [|b u Hs IH Hb]; constructor; [| exact IH].
  intros Hin. rewrite Forall_forall in Hb. specialize (Hb _ Hin). lia.
Qed.

(** ** Sums *)





Lemma tsum_cons x l : tsum (x :: l) = x + tsum l.
Proof. reflexivity. Qed.




(** ** seqadd on triples *)

Lemma zip_xs_ys (T : list adding_point) : zip (xs T) (ys T) = map fst T.
Proof.
  unfold xs, ys. induction T as [|[[x y] v] T IH]; [reflexivity |].
  cbn [map zip zip_with fst snd]. f_equal. exact IH.
Qed.

Lemma zip_map_map {A B C : Type} (f : A -> B) (g : A -> C) (l : list A) :
  zip (map f l) (map g l) = map (fun a => (f a, g a)) l.
Proof.
  induction l as [|a l IH]; [reflexivity |].
  cbn [map zip zip_with]. f_equal. exact IH.
Qed.

Lemma mask_xs (g : adding_point -> bool) T :
  mask_select (xs T) (map g T) = xs (List.filter g T).
Proof. unfold xs. now rewrite mask_select_map, mask_select_filter. Qed.

Lemma mask_ys (g : adding_point -> bool) T :
  mask_select (ys T) (map g T) = ys (List.filter g T).
Proof. unfold ys. now rewrite mask_select_map, mask_select_filter. Qed.

Lemma mask_vs (g : adding_point -> bool) T :
  mask_select (vs T) (map g T) = vs (List.filter g T).
Proof. unfold vs. now rewrite mask_select_map, mask_select_filter. Qed.

(** ** scatter_add *)

Lemma wsum_cons k i v lv :
  wsum k ((i, v) :: lv) = (if (k =? i)%Z then v else 0) + wsum k lv.
Proof. reflexivity. Qed.

Lemma nth_alter_eq (f : Q -> Q) (n : nat) (D : list Q) :
  (n < length D)%nat -> nth n (alter f n D) 0 = f (nth n D 0).
Proof.
  intros Hn. rewrite !nth_lookup, list_lookup_alter_eq.
  destruct (lookup_lt_is_Some_2 D n Hn) as [d ->]. reflexivity.
Qed.

Lemma nth_alter_ne (f : Q -> Q) (n k : nat) (D : list Q) :
  n <> k -> nth k (alter f n D) 0 = nth k D 0.
Proof. intros Hn. now rewrite !nth_lookup, list_lookup_alter_ne. Qed.

Lemma scatter_add_pairs (lv : list (Z * Q)) :
  forall D : list Q,
    Forall (fun iv => (0 <= fst iv < Z.of_nat (length D))%Z) lv ->
    exists D',
      for_each
        (fun (D : list Q) (iv : Z * Q) =>
           if ((0 <=? fst iv)%Z && (fst iv <? Z.of_nat (length D))%Z)%bool
           then Ok (alter (fun d => d + snd iv) (Z.to_nat (fst iv)) D)
           else Raise RuntimeError) lv D = Ok D' /\
      length D' = length D /\
      forall k, (k < length D)%nat ->
        nth k D' 0 == nth k D 0 + wsum (Z.of_nat k) lv.
Proof.
  induction lv as [|[i v] lv IH]; intros D Hr.
  - exists D. cbn [for_each]. repeat split. intros k _.
    unfold wsum, tsum. cbn [map foldr]. ring.
  - apply Forall_cons in Hr as [Hi Hr]. cbn [fst] in Hi.
    cbn [for_each fst snd].
    replace ((0 <=? i)%Z && (i <? Z.of_nat (length D))%Z) with true
      by (symmetry; apply andb_true_iff; split;
          [apply Z.leb_le | apply Z.ltb_lt]; lia).
    cbn [bind].
    destruct (IH (alter (fun d => d + v) (Z.to_nat i) D)) as (D' & HD' & HL & Hk).
    { now rewrite length_alter. }
    exists D'. rewrite length_alter in HL.
    split; [exact HD' |]. split; [exact HL |].
    intros k Hlt. rewrite Hk by (now rewrite length_alter).
    rewrite wsum_cons.
    destruct (Z.eqb_spec (Z.of_nat k) i) as [<- | Hne].
    + rewrite Nat2Z.id, nth_alter_eq by assumption. ring.
    + rewrite nth_alter_ne by lia. ring.
Qed.

Lemma wsum_unpaired k lv : Forall (fun iv => fst iv <> k) lv -> wsum k lv == 0.
Proof.
  induction 1 as [|[i v] lv Hi _ IH]; [reflexivity |].
  rewrite wsum_cons, IH. cbn [fst] in Hi.
  destruct (Z.eqb_spec k i); [congruence | ring].
Qed.

(** Each index of a duplicate-free list receives the one value computed
    for it. *)
Lemma wsum_NoDup (g : Z -> Q) (U : list Z) (k : Z) :
  NoDup U ->
  wsum k (zip U (map g U)) == if bool_decide (k ∈ U) then g k else 0.
Proof.
  induction 1 as [|u U Hu _ IH]; [reflexivity |].
  cbn [map zip zip_with]. rewrite wsum_cons, IH.
  destruct (Z.eqb_spec k u) as [-> | Hne].
  - rewrite (bool_decide_eq_false_2 _ Hu).
    rewrite bool_decide_eq_true_2 by apply list_elem_of_here. ring.
  - destruct (bool_decide_reflect (k ∈ U)) as [Hin | Hnin].
    + rewrite bool_decide_eq_true_2 by (now apply list_elem_of_further). ring.
    + rewrite bool_decide_eq_false_2; [ring |].
      rewrite elem_of_cons. tauto.
Qed.

Lemma wsum_filter (f : adding_point -> Z) (k : Z) (K : list adding_point) :
  wsum k (zip (map f K) (vs K))
  == tsum (vs (List.filter (fun t => (f t =? k)%Z) K)).
Proof.
  unfold vs. induction K as [|t K IH]; [reflexivity |].
  cbn [map zip zip_with List.filter]. rewrite wsum_cons, IH.
  rewrite (Z.eqb_sym k). destruct (f t =? k)%Z; cbn [map]; rewrite ?tsum_cons; ring.
Qed.

Lemma filter_filter {A : Type} (f g : A -> bool) (l : list A) :
  List.filter g (List.filter f l) = List.filter (fun a => f a && g a) l.
Proof.
  induction l as [|a l IH]; [reflexivity |].
  cbn [List.filter]. destruct (f a); cbn [List.filter andb];
    [destruct (g a) |]; now rewrite IH.
Qed.

(** ** Kept adding points lie on the image *)

Lemma long_floor x : 0 <= x -> long x = Qfloor x.
Proof.
  destruct x as [n d]. unfold long, Qle. cbn [Qnum Qden Qfloor].
  intros H. apply Z.quot_div_nonneg; lia.
Qed.

Lemma in_bounds_coord (m : Z) (x : Q) :
  Qltb (floor x) 0 || Qltb (inject_Z m) (ceil x) = false ->
  (0 <= long x <= m)%Z.
Proof.
  intros H. apply orb_false_iff in H as [H1 H2].
  apply Qltb_ge in H1, H2. unfold floor, ceil in *.
  change 0 with (inject_Z 0) in H1. rewrite <- Zle_Qle in H1, H2.
  assert (Hx : 0 <= x).
  { eapply Qle_trans; [| apply Qfloor_le].
    change 0 with (inject_Z 0). now rewrite <- Zle_Qle. }
  rewrite (long_floor x Hx).
  pose proof (Qle_floor_ceiling x) as Hfc. rewrite <- Zle_Qle in Hfc. lia.
Qed.

Section SeqaddProperties.

Variable sub2ind : nat * nat -> Z -> Z -> Z.

Lemma zip_with_target sh (K : list adding_point) :
  zip_with (sub2ind sh) (map long (xs K)) (map long (ys K))
  = map (target sub2ind sh) K.
Proof.
  unfold xs, ys. induction K as [|t K IH]; [reflexivity |].
  cbn [map zip_with]. f_equal. exact IH.
Qed.

Lemma seqadd_triples (D : image) (T : list adding_point) :
  seqadd sub2ind D (xs T) (ys T) (vs T)
  = seqadd_kept sub2ind D (List.filter (keptb (shape D)) T).
Proof.
  unfold seqadd, seqadd_kept.
  replace ((length (xs T) =? length (ys T))%nat
           && (length (ys T) =? length (vs T))%nat) with true
    by (unfold xs, ys, vs; rewrite !length_map, Nat.eqb_refl; reflexivity).
  cbn [assert bind].
  rewrite zip_xs_ys, check_bounds_map, !map_map.
  change (map (fun x => negb (out_of_bounds _ (fst x))) T)
    with (map (keptb (shape D)) T).
  rewrite !mask_xs, !mask_ys, !mask_vs.
  set (K := List.filter (keptb (shape D)) T).
  replace (length (map long (xs K))) with (length K)
    by (unfold xs; now rewrite !length_map).
  destruct (length K =? 0)%nat; [reflexivity |].
  rewrite zip_with_target.
  f_equal. f_equal. apply map_ext. intros i. apply where_zero.
Qed.




(** The index of a pixel on the image lies in the flattened image. *)
Hypothesis sub2ind_range : forall (sh : nat * nat) (r c : Z),
  (0 <= r < Z.of_nat (fst sh))%Z -> (0 <= c < Z.of_nat (snd sh))%Z ->
  (0 <= sub2ind sh r c < Z.of_nat (fst sh * snd sh))%Z.

Lemma kept_target_range sh (t : adding_point) :
  keptb sh t = true ->
  (0 <= target sub2ind sh t < Z.of_nat (fst sh * snd sh))%Z.
Proof using sub2ind_range.
  unfold keptb, out_of_bounds. rewrite negb_true_iff, orb_false_iff.
  intros [Hx Hy]. apply in_bounds_coord in Hx, Hy.
  cbn [fst snd] in Hx, Hy. unfold target. apply sub2ind_range; lia.
Qed.

Lemma seqadd_kept_spec (D : image) (K : list adding_point) :
  length (data D) = (fst (shape D) * snd (shape D))%nat ->
  Forall (fun t => keptb (shape D) t = true) K ->
  exists D',
    seqadd_kept sub2ind D K = Ok D' /\
    shape D' = shape D /\ length (data D') = length (data D) /\
    forall k, (k < length (data D))%nat ->
      nth k (data D') 0 ==
      nth k (data D) 0
      + tsum (vs (List.filter
                    (fun t => (target sub2ind (shape D) t =? Z.of_nat k)%Z) K)).
Proof using sub2ind_range.
  intros Hwf HK. unfold seqadd_kept.
  destruct (length K =? 0)%nat eqn:HK0.
  - exists D. repeat split. intros k _.
    apply Nat.eqb_eq, length_zero_iff_nil in HK0. subst K.
    cbn [List.filter]. unfold vs, tsum. cbn [map foldr]. ring.
  - set (lind := map (target sub2ind (shape D)) K).
    set (g := fun i => wsum i (zip lind (vs K))).
    destruct (scatter_add_pairs (zip (unique lind) (map g (unique lind)))
                (data D)) as (D' & HD' & HL & Hk).
    { apply Forall_forall. intros [i v] Hin. cbn [fst].
      apply elem_of_zip_l in Hin. cbn [fst] in Hin.
      rewrite elem_of_unique in Hin. unfold lind in Hin.
      apply list_elem_of_fmap in Hin as (t & -> & Ht).
      rewrite Forall_forall in HK. rewrite Hwf.
      apply kept_target_range. now apply HK. }
    unfold scatter_add. rewrite HD'. cbn [bind].
    eexists. split; [reflexivity |]. cbn [shape data].
    split; [reflexivity |]. split; [exact HL |].
    intros k Hlt. rewrite (Hk k Hlt).
    rewrite (wsum_NoDup g _ _ (unique_NoDup lind)).
    apply Qplus_inj_l.
    assert (Hg : g (Z.of_nat k)
                 == tsum (vs (List.filter
                     (fun t => (target sub2ind (shape D) t =? Z.of_nat k)%Z) K)))
      by apply wsum_filter.
    destruct (bool_decide_reflect (Z.of_nat k ∈ unique lind)) as [Hin | Hnin];
      [exact Hg |].
    rewrite <- Hg. symmetry. apply wsum_unpaired.
    apply Forall_forall. intros [i v] Hiv. cbn [fst].
    apply elem_of_zip_l in Hiv. cbn [fst] in Hiv.
    intros ->. apply Hnin. rewrite elem_of_unique. exact Hiv.
Qed.

Lemma seqadd_returns (D : image) (T : list adding_point) :
  length (data D) = (fst (shape D) * snd (shape D))%nat ->
  exists D',
    seqadd sub2ind D (xs T) (ys T) (vs T) = Ok D' /\
    shape D' = shape D /\ length (data D') = length (data D) /\
    forall k, (k < length (data D))%nat ->
      nth k (data D') 0 ==
      nth k (data D) 0
      + tsum (vs (List.filter
                    (fun t => keptb (shape D) t
                              && (target sub2ind (shape D) t =? Z.of_nat k)%Z)
                    T)).
Proof using sub2ind_range.
  intros Hwf.
  destruct (seqadd_kept_spec D (List.filter (keptb (shape D)) T) Hwf)
    as (D' & HD' & Hsh & HL & Hk).
  { apply Forall_forall. intros t Ht.
    apply list_elem_of_In, filter_In in Ht. tauto. }
  exists D'. rewrite seqadd_triples.
  split; [exact HD' |]. split; [exact Hsh |]. split; [exact HL |].
  intros k Hlt. rewrite (Hk k Hlt), filter_filter. reflexivity.
Qed.


End SeqaddProperties.

(** ** The ink of a stroke *)





Lemma renormalize_no_assertion ink myink :
  renormalize ink myink <> Raise AssertionError.
Proof.
  unfold renormalize.
  destruct (Qltb _ _); [destruct myink; discriminate |].
  destruct (Qltb _ _); discriminate.
Qed.

Section InkProperties.

Variable sqrt : Q -> Q.




End InkProperties.

(** ** The ink of a stroke in float32 *)


Lemma tsum_map_above {A : Type} (f g : A -> Q) (l : list A) :
  (forall x, f x <= g x) -> tsum (map f l) <= tsum (map g l).
Proof.
  intros H. induction l as [|x l IH]; [apply Qle_refl |].
  cbn [map]. rewrite !tsum_cons. specialize (H x). lra.
Qed.

Lemma tsum_map_above_in (f g : Q -> Q) (l : list Q) :
  Forall (fun x => f x <= g x) l -> tsum (map f l) <= tsum (map g l).
Proof.
  induction 1 as [|x l Hx _ IH]; [apply Qle_refl |].
  cbn [map]. rewrite !tsum_cons. lra.
Qed.

(** With the identity as rounding and the exact sum the float32 model
    of the ink of a stroke is the exact one. *)
Lemma stroke_ink_unrounded sqrt ink max_dist (myt : list vec2) :
  F32.stroke_ink (fun x => x) sqrt tsum ink max_dist myt
  = stroke_ink sqrt ink max_dist myt.
Proof. reflexivity. Qed.

Section InkRounded.

(** The rounding of a float32 operation has a relative error of at most
    [u]. *)
Variable fl : Q -> Q.
Variable u : Q.
Hypothesis fl_error : forall x, Qabs (fl x - x) <= u * Qabs x.

Variable sqrt : Q -> Q.
Variable torch_sum : list Q -> Q.
















End InkRounded.





(** Two points one unit apart get one unit of ink each, in float32 as in
    exact arithmetic; with the ink constant 2048 a single point still
    passes the assertion. *)
Example stroke_ink_rounded_cases :
  (exists v,
     F32.stroke_ink F32.round sqrt_approx sum_once 2 2
       [(1 # 2, 1 # 2); (1 # 2, 3 # 2)] = Ok (Vector v) /\
     Forall2 Qeq v [1; 1]) /\
  F32.stroke_ink F32.round sqrt_approx sum_once 2048 2 [(1 # 2, 1 # 2)]
    = Ok (Scalar 2048).
Proof.
  split; [| vm_compute; reflexivity].
  eexists. split; [vm_compute; reflexivity |].
  repeat (constructor; [vm_compute; reflexivity |]). constructor.
Qed.

(** ** The loop of render_image *)



Lemma parallel_triples (lx ly lv : list Q) :
  length lx = length ly -> length ly = length lv ->
  exists T : list adding_point, xs T = lx /\ ys T = ly /\ vs T = lv.
Proof.
  revert ly lv. induction lx as [|x lx IH]; intros [|y ly] [|v lv];
    cbn [length]; try discriminate; intros Hxy Hyv.
  - exists []. auto.
  - destruct (IH ly lv) as (T & <- & <- & <-); try congruence.
    exists ((x, y, v) :: T). auto.
Qed.


Section PaintProperties.

Variable sqrt : Q -> Q.
Variable sub2ind : nat * nat -> Z -> Z -> Z.




(** The index of a pixel on the image lies in the flattened image. *)
Hypothesis sub2ind_range : forall (sh : nat * nat) (r c : Z),
  (0 <= r < Z.of_nat (fst sh))%Z -> (0 <= c < Z.of_nat (snd sh))%Z ->
  (0 <= sub2ind sh r c < Z.of_nat (fst sh * snd sh))%Z.

Lemma seqadd_total parameters (D : image) (lx ly lv : list Q) :
  page_image parameters D ->
  length lx = length ly -> length ly = length lv ->
  exists D', seqadd sub2ind D lx ly lv = Ok D' /\ page_image parameters D'.
Proof using sub2ind_range.
  intros [Hsh Hlen] Hxy Hyv.
  destruct (parallel_triples lx ly lv Hxy Hyv) as (T & <- & <- & <-).
  destruct (seqadd_returns sub2ind sub2ind_range D T)
    as (D' & HD' & Hsh' & Hlen' & _).
  { now rewrite Hsh. }
  exists D'. split; [exact HD' |]. split; congruence.
Qed.




Lemma zeros_page parameters : page_image parameters (zeros (imsize parameters)).
Proof. split; [reflexivity |]. cbn [zeros data]. apply length_replicate. Qed.


End PaintProperties.

(** ** check_bounds on one point *)

Lemma out_of_bounds_spec imsize (p : vec2) :
  out_of_bounds imsize p = true <-> off_page imsize p.
Proof.
  unfold out_of_bounds, off_page, floor, ceil.
  rewrite !orb_true_iff, !Qltb_lt. change 0 with (inject_Z 0).
  rewrite <- !Zlt_Qlt. tauto.
Qed.



Lemma for_each_app {S I : Type} (body : S -> I -> result S) (l1 l2 : list I)
  (s : S) :
  for_each body (l1 ++ l2) s
  = (s' <-- for_each body l1 s ;; for_each body l2 s').
Proof.
  revert s. induction l1 as [|i l1 IH]; intros s; cbn [app for_each bind];
    [reflexivity |].
  destruct (body s i); cbn [bind]; [apply IH | reflexivity].
Qed.

(** ** render_image *)

Section RenderProperties.

Variable sqrt : Q -> Q.
Variable sub2ind : nat * nat -> Z -> Z -> Z.
Variable imfilter : image -> list (list Q) -> image.
Variable fspecial : nat -> Q -> list (list Q).



(** The index of a pixel on the image lies in the flattened image. *)
Hypothesis sub2ind_range : forall (sh : nat * nat) (r c : Z),
  (0 <= r < Z.of_nat (fst sh))%Z -> (0 <= c < Z.of_nat (snd sh))%Z ->
  (0 <= sub2ind sh r c < Z.of_nat (fst sh * snd sh))%Z.


(** C7. The last step of [render_image] sets every pixel to
    [(1-epsilon)*p + epsilon*(1-p)], where [p] is the value of the blurred
    and truncated ink map, a number between 0 and 1; for [epsilon = 0] the
    output is that map, for [epsilon = 1/2] every pixel is 1/2. *)
Theorem render_image_blend cell_traj epsilon blur_sigma parameters
  (ink : image) (flag : bool) :
  ink_map sqrt sub2ind imfilter fspecial cell_traj blur_sigma parameters
    = Ok (ink, flag) ->
  exists pimg,
    render_image sqrt sub2ind imfilter fspecial cell_traj epsilon blur_sigma
      parameters = Ok (pimg, flag) /\
    shape pimg = shape ink /\
    data pimg
      = map (fun p => (1 - epsilon) * p + epsilon * (1 - p)) (data ink) /\
    Forall (fun p => 0 <= p <= 1) (data ink) /\
    (epsilon == 0 -> Forall2 Qeq (data pimg) (data ink)) /\
    (epsilon == 1 # 2 -> Forall (fun v => v == 1 # 2) (data pimg)).
Proof.
  intros Hink. unfold render_image. rewrite Hink. cbn [bind fst snd].
  eexists. split; [reflexivity |]. cbn [shape data].
  split; [reflexivity |]. split; [reflexivity |]. split; [| split].
  - unfold ink_map in Hink.
    destruct (paint sqrt sub2ind cell_traj parameters) as [[p0 f0] | e];
      cbn [bind fst snd] in Hink; [| discriminate].
    injection Hink as <- _. unfold blur_truncate, clip_below, clip_above.
    cbn [data]. rewrite map_map. apply Forall_forall. intros v Hv.
    apply list_elem_of_fmap in Hv as (u & -> & _). split.
    + apply Q.le_max_r.
    + apply Q.max_lub; [apply Q.le_min_r | discriminate].
  - intros He. induction (data ink) as [|p l IH]; cbn [map]; constructor;
      [rewrite He; ring | exact IH].
  - intros He. apply Forall_forall. intros v Hv.
    apply list_elem_of_fmap in Hv as (u & -> & _). rewrite He. ring.
Qed.

End RenderProperties.

(** ** seqadd at the edge of the image *)

Lemma keptb_spec sh (t : adding_point) :
  keptb sh t = true <->
  (0 <= Qfloor (fst (fst t)) /\
   Qceiling (fst (fst t)) <= Z.of_nat (fst sh) - 1 /\
   0 <= Qfloor (snd (fst t)) /\
   Qceiling (snd (fst t)) <= Z.of_nat (snd sh) - 1)%Z.
Proof.
  unfold keptb. rewrite negb_true_iff, <- not_true_iff_false.
  rewrite out_of_bounds_spec. unfold off_page. cbn [fst snd]. lia.
Qed.

Lemma filter_idem {A : Type} (f : A -> bool) (l : list A) :
  List.filter f (List.filter f l) = List.filter f l.
Proof.
  rewrite filter_filter. apply filter_ext. intros a. now destruct (f a).
Qed.

Lemma sub2ind_rm_range (sh : nat * nat) (r c : Z) :
  (0 <= r < Z.of_nat (fst sh))%Z -> (0 <= c < Z.of_nat (snd sh))%Z ->
  (0 <= sub2ind_rm sh r c < Z.of_nat (fst sh * snd sh))%Z.
Proof. unfold sub2ind_rm. intros Hr Hc. rewrite Nat2Z.inj_mul. nia. Qed.

(** ** The ink that reaches the grid *)

Lemma tsum_alter_add (v : Q) (n : nat) (D : list Q) :
  (n < length D)%nat -> tsum (alter (fun d => d + v) n D) == tsum D + v.
Proof.
  revert n. induction D as [|d D IH]; intros n Hn; cbn [length] in Hn; [lia |].
  destruct n as [|n]; cbn [alter list_alter]; rewrite !tsum_cons.
  - ring.
  - rewrite IH by lia. ring.
Qed.

Lemma scatter_add_total (index : list Z) (src D D' : list Q) :
  scatter_add D index src = Ok D' ->
  tsum D' == tsum D + tsum (map snd (zip index src)).
Proof.
  unfold scatter_add. generalize (zip index src) as lv. intros lv. revert D.
  induction lv as [|[i v] lv IH]; intros D; cbn [for_each map fst snd].
  - intros [= <-]. unfold tsum at 3. cbn [foldr]. ring.
  - destruct (Z.leb_spec 0 i) as [H0 | H0]; cbn [andb]; [| discriminate].
    destruct (Z.ltb_spec i (Z.of_nat (length D))) as [H1 | H1];
      [| discriminate].
    cbn [bind]. intros HD'. rewrite (IH _ HD'), tsum_alter_add by lia.
    rewrite tsum_cons. ring.
Qed.

Lemma group_sums_total (U : list Z) (lv : list (Z * Q)) :
  NoDup U -> Forall (fun iv => fst iv ∈ U) lv ->
  tsum (map (fun i => wsum i lv) U) == tsum (map snd lv).
Proof.
  intros HU. induction 1 as [|[l v] lv Hl _ IH]; cbn [map fst snd] in *.
  - induction U as [|u U IHU]; [reflexivity |].
    cbn [map]. rewrite tsum_cons, IHU; [reflexivity |].
    now apply NoDup_cons_1_2 in HU.
  - rewrite tsum_cons, <- IH. clear IH.
    induction HU as [|u U Hu HU IHU]; [now apply elem_of_nil in Hl |].
    cbn [map]. rewrite !tsum_cons, wsum_cons.
    apply elem_of_cons in Hl as [-> | Hl].
    + rewrite Z.eqb_refl.
      assert (H0 : tsum (map (fun i => wsum i ((u, v) :: lv)) U)
                   == tsum (map (fun i => wsum i lv) U)).
      { clear IHU HU. induction U as [|w U IHU]; [reflexivity |].
        cbn [map]. rewrite !tsum_cons, wsum_cons.
        apply not_elem_of_cons in Hu as [Hne Hu].
        destruct (Z.eqb_spec w u); [congruence |]. rewrite (IHU Hu). ring. }
      rewrite H0. ring.
    + rewrite (IHU Hl).
      destruct (Z.eqb_spec u l) as [-> | Hne]; [contradiction | ring].
Qed.

Lemma snd_zip_map {A B : Type} (g : A -> B) (U : list A) :
  map snd (zip U (map g U)) = map g U.
Proof.
  induction U as [|u U IH]; [reflexivity |].
  cbn [map zip zip_with snd]. now rewrite IH.
Qed.

Lemma seqadd_kept_ink sub2ind (D D' : image) (K : list adding_point) :
  seqadd_kept sub2ind D K = Ok D' ->
  tsum (data D') == tsum (data D) + tsum (vs K).
Proof.
  unfold seqadd_kept.
  destruct (length K =? 0)%nat eqn:HK0.
  - intros [= <-]. apply Nat.eqb_eq, length_zero_iff_nil in HK0. subst K.
    unfold vs, tsum. cbn [map foldr]. ring.
  - set (lind := map (target sub2ind (shape D)) K).
    destruct (scatter_add _ _ _) as [d | e] eqn:Hs; cbn [bind]; [| discriminate].
    intros [= <-]. cbn [data].
    rewrite (scatter_add_total _ _ _ _ Hs), snd_zip_map.
    rewrite (group_sums_total _ _ (unique_NoDup lind)).
    + unfold vs, lind. rewrite zip_map_map, map_map. reflexivity.
    + apply Forall_forall. intros [l v] Hin. cbn [fst].
      apply elem_of_zip_l in Hin. cbn [fst] in Hin. now apply elem_of_unique.
Qed.

Lemma seqadd_ink sub2ind (D D' : image) (lx ly lv : list Q) :
  seqadd sub2ind D lx ly lv = Ok D' ->
  tsum (data D')
  == tsum (data D)
     + tsum (mask_select lv
               (map negb
                  (check_bounds (zip lx ly)
                     (Z.of_nat (fst (shape D)) - 1,
                      Z.of_nat (snd (shape D)) - 1)%Z))).
Proof.
  intros HD'.
  assert (Hlen : length lx = length ly /\ length ly = length lv).
  { unfold seqadd in HD'.
    destruct (Nat.eqb_spec (length lx) (length ly));
      destruct (Nat.eqb_spec (length ly) (length lv));
      cbn [andb assert bind] in HD'; try discriminate. auto. }
  destruct Hlen as [Hxy Hyv].
  destruct (parallel_triples lx ly lv Hxy Hyv) as (T & <- & <- & <-).
  rewrite seqadd_triples in HD'. rewrite (seqadd_kept_ink _ _ _ _ HD').
  rewrite zip_xs_ys, check_bounds_map, !map_map.
  change (map (fun x => negb (out_of_bounds _ (fst x))) T)
    with (map (keptb (shape D)) T).
  now rewrite mask_vs.
Qed.

(** On the 3x3 page the point (5/2, 1) carries 2 units of ink, one of
    which reaches the grid. *)
Section EdgeExample.

Variable sqrt : Q -> Q.
Variable sub2ind : nat * nat -> Z -> Z -> Z.
Hypothesis sub2ind_range : forall (sh : nat * nat) (r c : Z),
  (0 <= r < Z.of_nat (fst sh))%Z -> (0 <= c < Z.of_nat (snd sh))%Z ->
  (0 <= sub2ind sh r c < Z.of_nat (fst sh * snd sh))%Z.

Lemma edge_point_loses_ink :
  exists pimg myink,
    paint sqrt sub2ind [[(1, -5 # 2)]] small_page = Ok (pimg, false) /\
    stroke_ink sqrt (ink_pp small_page) (ink_max_dist small_page)
      (space_motor_to_img [(1, -5 # 2)]) = Ok myink /\
    ink_sum myink == 2 /\ tsum (data pimg) == 1.
Proof using sub2ind_range.
  unfold paint. cbn [index lookup list_lookup bind map for_each].
  unfold paint_body. cbv -[seqadd tsum Qeq data].
  repeat match goal with
  | |- context [seqadd sub2ind ?D ?lx ?ly ?lv] =>
      let D' := fresh "D" in
      let HD := fresh "HD" in
      let HP := fresh "HP" in
      let HI := fresh "HI" in
      destruct (seqadd_total sub2ind sub2ind_range small_page D lx ly lv)
        as (D' & HD & HP);
      [ first [assumption | apply (zeros_page small_page)]
      | reflexivity | reflexivity | ];
      pose proof (seqadd_ink sub2ind D D' lx ly lv HD) as HI;
      rewrite HD
  end.
  repeat match goal with
  | HP : page_image small_page ?D |- _ =>
      destruct HP as [HP _]; cbn [imsize small_page] in HP;
      rewrite HP in *; clear HP
  end.
  repeat match goal with
  | HI : tsum _ == tsum _ + ?t |- _ =>
      let v := eval vm_compute in t in
      change t with v in HI; revert HI
  end.
  intros. eexists _, _. split; [reflexivity |]. split; [reflexivity |].
  split; [reflexivity |]. cbn [data].
  repeat match goal with
  | HI : tsum (data ?D) == _ |- context [tsum (data ?D)] =>
      rewrite HI; clear HI
  end.
  reflexivity.
Qed.
End EdgeExample.

(** C10. [seqadd] works on the adding points that pass its own check
    against the image dimensions minus one; the others are dropped
    without a trace, and the ink on the grid grows by the ink of the
    points kept.  A trajectory point whose ceiling equals the image
    dimension passes the check of [render_image], and its two ceiling
    neighbors fail the check of [seqadd].  So on the 3x3 page the single
    point (5/2, 1) is given 2 units of ink, 1 unit reaches the grid, and
    the flag stays false. *)
Theorem seqadd_drops_edge_ceiling :
  (forall sub2ind D T,
     seqadd sub2ind D (xs T) (ys T) (vs T)
     = let K := List.filter (keptb (shape D)) T in
       seqadd sub2ind D (xs K) (ys K) (vs K)) /\
  (forall sub2ind D T D',
     seqadd sub2ind D (xs T) (ys T) (vs T) = Ok D' ->
     tsum (data D')
     == tsum (data D) + tsum (vs (List.filter (keptb (shape D)) T))) /\
  (forall sh t,
     keptb sh t = true <->
     (0 <= Qfloor (fst (fst t)) /\
      Qceiling (fst (fst t)) <= Z.of_nat (fst sh) - 1 /\
      0 <= Qfloor (snd (fst t)) /\
      Qceiling (snd (fst t)) <= Z.of_nat (snd sh) - 1)%Z) /\
  (forall parameters p v,
     ~ off_page (imsizeZ parameters) p ->
     Qceiling (fst p) = Z.of_nat (fst (imsize parameters)) ->
     keptb (imsize parameters) (ceil (fst p), floor (snd p), v) = false /\
     keptb (imsize parameters) (ceil (fst p), ceil (snd p), v) = false) /\
  (forall (sqrt : Q -> Q) (sub2ind : nat * nat -> Z -> Z -> Z),
     (forall (sh : nat * nat) (r c : Z),
        (0 <= r < Z.of_nat (fst sh))%Z -> (0 <= c < Z.of_nat (snd sh))%Z ->
        (0 <= sub2ind sh r c < Z.of_nat (fst sh * snd sh))%Z) ->
     exists pimg myink,
       paint sqrt sub2ind [[(1, -5 # 2)]] small_page = Ok (pimg, false) /\
       stroke_ink sqrt (ink_pp small_page) (ink_max_dist small_page)
         (space_motor_to_img [(1, -5 # 2)]) = Ok myink /\
       ink_sum myink == 2 /\ tsum (data pimg) == 1).
Proof.
  split; [| split; [| split; [| split]]].
  - intros sub2ind D T. cbv zeta. rewrite !seqadd_triples.
    now rewrite filter_idem.
  - intros sub2ind D T D' HD'. rewrite seqadd_triples in HD'.
    now apply seqadd_kept_ink in HD'.
  - apply keptb_spec.
  - intros parameters p v _ Hc.
    split; apply not_true_iff_false; rewrite keptb_spec; cbn [fst snd];
      unfold ceil; rewrite Qceiling_Z, Hc; lia.
  - apply edge_point_loses_ink.
Qed.

Lemma seqadd_drops_edge_ceiling_witness :
  exists pimg myink,
    paint sqrt_approx sub2ind_rm [[(1, -5 # 2)]] small_page
      = Ok (pimg, false) /\
    stroke_ink sqrt_approx (ink_pp small_page) (ink_max_dist small_page)
      (space_motor_to_img [(1, -5 # 2)]) = Ok myink /\
    ink_sum myink == 2 /\ tsum (data pimg) == 1.
Proof.
  destruct seqadd_drops_edge_ceiling as (_ & _ & _ & _ & Hedge).
  apply (Hedge sqrt_approx sub2ind_rm). exact sub2ind_rm_range.
Defined.

(** With row-major indexing the unit of ink lands on the pixel (2,1). *)
Example paint_edge_point :
  paint sqrt_approx sub2ind_rm [[(1, -5 # 2)]] small_page
  = Ok ({| shape := (3, 3)%nat;
           data := [0; 0; 0; 0; 0; 0; 0; 4 # 4; 0] |}, false).
Proof. vm_compute. reflexivity. Qed.

(** ** The properties on examples *)

(** Two points one unit apart get one unit of ink each. *)
Example stroke_ink_two_points :
  stroke_ink sqrt_approx 2 2 [(1 # 2, 1 # 2); (1 # 2, 3 # 2)]
  = Ok (Vector [2048 # 2048; 2048 # 2048]).
Proof. vm_compute. reflexivity. Qed.

(** A single point with an ink constant below the threshold: the shape
    of the 0-dim tensor is read and the index error is raised. *)
Example stroke_ink_tiny_single :
  stroke_ink sqrt_approx (1 # 10000000) 2 [(1 # 2, 1 # 2)] = Raise IndexError.
Proof. vm_compute. reflexivity. Qed.


(** The two points on the pixel (0,1) are summed to 6/8, the point off
    the image is dropped, and the reversed list gives the same image. *)
Example seqadd_dup_points :
  seqadd sub2ind_rm (zeros (2, 2)%nat) (xs dup_points) (ys dup_points)
    (vs dup_points)
  = Ok {| shape := (2, 2)%nat; data := [0; 6 # 8; 3; 0] |} /\
  seqadd sub2ind_rm (zeros (2, 2)%nat) (xs (rev dup_points))
    (ys (rev dup_points)) (vs (rev dup_points))
  = Ok {| shape := (2, 2)%nat; data := [0; 6 # 8; 3; 0] |}.
Proof. split; vm_compute; reflexivity. Qed.

(** ** The eval-spot token of a 'mid' relation *)

Lemma xsub_fin_not_neg_inf (q : Q) (b : xnum) :
  b <> PInf -> is_neg_inf (xsub (Fin q) b) = false.
Proof. destruct b; intros H; try reflexivity. congruence. Qed.

Lemma RelationAttachAlong_mid category attach_ix attach_subix eval_spot lib rel :
  RelationAttachAlong category attach_ix attach_subix eval_spot lib = Ok rel ->
  category = "mid"%string /\
  rel = AttachAlong "mid" (sigma_x lib, sigma_y lib) attach_ix attach_subix
          eval_spot (lib_ncpt lib) (lib_sigma_attach lib).
Proof.
  unfold RelationAttachAlong, RelationAttach, Relation.
  destruct (str_in category categories_allowed); cbn [assert bind];
    [| discriminate].
  destruct (str_in category _); cbn [assert bind]; [| discriminate].
  destruct (String.eqb_spec category "mid") as [-> | Hne]; cbn [assert bind];
    [| discriminate].
  intros [= <-]. split; reflexivity.
Qed.

Lemma RelationToken_mid rel (v : Q) :
  category rel = "mid"%string ->
  RelationToken rel (<["eval_spot_token"%string := v]> ∅)
  = Ok {| rel := rel; eval_spot_token := Some v |}.
Proof.
  intros Hc. unfold RelationToken. rewrite Hc. cbn [str_in existsb orb].
  replace (String.eqb "mid" "unihist" || (String.eqb "mid" "start"
           || (String.eqb "mid" "end" || false))) with false by reflexivity.
  rewrite bool_decide_eq_true_2.
  2:{ rewrite dom_insert_L, dom_empty_L. apply (right_id_L ∅ (∪)). }
  cbn [assert bind]. now rewrite lookup_insert_eq.
Qed.

Section EvalSpotProperties.

Variable bspline_gen_s : nat -> nat -> list Q * Q * Q.
Variable log_prob : Normal -> Q -> xnum.
Variable cdf : Normal -> Q -> Q.
Variable log : Q -> xnum.
Variable sample : Normal -> nat -> Q.

Local Abbreviation lb := (lower_bound bspline_gen_s).
Local Abbreviation ub := (upper_bound bspline_gen_s).
Local Abbreviation score := (score_eval_spot_token bspline_gen_s log_prob cdf log).
Local Abbreviation draw := (sample_eval_spot_token bspline_gen_s log_prob cdf log
                          sample).

Lemma score_outside tok d ncpt :
  tok < lb ncpt \/ ub ncpt < tok -> score tok d ncpt = NInf.
Proof.
  unfold score_eval_spot_token, lower_bound, upper_bound.
  destruct (bspline_gen_s ncpt 1) as [[s l] u]. cbn [fst snd].
  intros H. replace (Qltb tok l || Qltb u tok) with true; [reflexivity |].
  symmetry. apply orb_true_iff. now rewrite !Qltb_lt.
Qed.

Lemma score_inside tok d ncpt :
  lb ncpt <= tok <= ub ncpt ->
  score tok d ncpt
  = xsub (log_prob d tok) (log (cdf d (ub ncpt) - cdf d (lb ncpt))).
Proof.
  unfold score_eval_spot_token, lower_bound, upper_bound.
  destruct (bspline_gen_s ncpt 1) as [[s l] u]. cbn [fst snd].
  intros [Hl Hu]. replace (Qltb tok l || Qltb u tok) with false; [reflexivity |].
  symmetry. apply orb_false_iff. now rewrite !Qltb_ge.
Qed.

Lemma inside_or_outside tok ncpt :
  lb ncpt <= tok <= ub ncpt \/ (tok < lb ncpt \/ ub ncpt < tok).
Proof.
  destruct (Qlt_le_dec tok (lb ncpt)); [tauto |].
  destruct (Qlt_le_dec (ub ncpt) tok); tauto.
Qed.

Lemma draw_within fuel d ncpt :
  forall n tok n',
    draw fuel d ncpt n = Some (tok, n') -> lb ncpt <= tok <= ub ncpt.
Proof.
  induction fuel as [|fuel IH]; intros n tok n'; cbn [sample_eval_spot_token];
    [discriminate |].
  destruct (is_neg_inf (score (sample d n) d ncpt)) eqn:Hll; [apply IH |].
  intros [= <- _].
  destruct (inside_or_outside (sample d n) ncpt) as [Hin | Hout];
    [exact Hin |].
  rewrite (score_outside _ d ncpt Hout) in Hll. discriminate.
Qed.

(** The density of a normal distribution is finite at every point, and
    the logarithm of a finite number is not plus infinity. *)
Hypothesis log_prob_finite : forall d x, exists q, log_prob d x = Fin q.
Hypothesis log_not_pinf : forall p, log p <> PInf.

Lemma draw_first_inside d ncpt (m : nat) :
  forall n : nat,
    (forall j, (j < m)%nat ->
       sample d (n + j) < lb ncpt \/ ub ncpt < sample d (n + j)) ->
    lb ncpt <= sample d (n + m) <= ub ncpt ->
    forall fuel, (m < fuel)%nat ->
      draw fuel d ncpt n = Some (sample d (n + m)%nat, S (n + m)).
Proof using log_prob_finite log_not_pinf.
  induction m as [|m IH]; intros n Hout Hin fuel Hfuel;
    (destruct fuel as [|fuel]; [lia |]); cbn [sample_eval_spot_token].
  - rewrite Nat.add_0_r in *. rewrite (score_inside _ d ncpt Hin).
    destruct (log_prob_finite d (sample d n)) as [q ->].
    now rewrite xsub_fin_not_neg_inf by apply log_not_pinf.
  - rewrite (score_outside (sample d n) d ncpt).
    2:{ specialize (Hout 0%nat). rewrite Nat.add_0_r in Hout.
        apply Hout. lia. }
    cbn [is_neg_inf].
    replace (n + S m)%nat with (S n + m)%nat in * by lia.
    apply IH; [| exact Hin | lia].
    intros j Hj. replace (S n + j)%nat with (n + S j)%nat by lia.
    apply Hout. lia.
Qed.

(** C4. For every 'mid' relation: whatever the number of draws, a token
    returned by [sample_token] carries an eval-spot within the closed
    range from the lower to the upper bound for [ncpt] (a draw on a bound
    is within); every draw outside the range is rejected and the first
    draw within it is the one returned. *)
Theorem sample_token_within_bounds category attach_ix attach_subix eval_spot
  lib rel :
  RelationAttachAlong category attach_ix attach_subix eval_spot lib = Ok rel ->
  let d := eval_spot_dist rel in
  let ncpt := ncpt_of rel in
  (forall fuel n r n',
     sample_token bspline_gen_s log_prob cdf log sample fuel rel n
       = Some (r, n') ->
     exists v, r = Ok {| rel := rel; eval_spot_token := Some v |} /\
               lb ncpt <= v <= ub ncpt) /\
  (forall n m,
     (forall j, (j < m)%nat ->
        sample d (n + j) < lb ncpt \/ ub ncpt < sample d (n + j)) ->
     lb ncpt <= sample d (n + m) <= ub ncpt ->
     forall fuel, (m < fuel)%nat ->
       sample_token bspline_gen_s log_prob cdf log sample fuel rel n
       = Some (Ok {| rel := rel; eval_spot_token := Some (sample d (n + m)) |},
               S (n + m))).
Proof using log_prob_finite log_not_pinf.
  intros Hrel. apply RelationAttachAlong_mid in Hrel as [-> ->].
  cbn [eval_spot_dist ncpt_of]. split.
  - intros fuel n r n'. cbn [sample_token].
    destruct (draw fuel _ (lib_ncpt lib) n) as [[v n1] |] eqn:Hd;
      [| discriminate].
    intros [= <- <-]. exists v. split; [now apply RelationToken_mid |].
    eapply draw_within. exact Hd.
  - intros n m Hout Hin fuel Hfuel. cbn [sample_token].
    rewrite (draw_first_inside _ (lib_ncpt lib) m n Hout Hin fuel Hfuel).
    now rewrite RelationToken_mid.
Qed.





End EvalSpotProperties.

(** ** What the constructors check *)

Lemma py_index_outside {A : Type} (l : list A) (i : Z) :
  (i < - Z.of_nat (length l) \/ Z.of_nat (length l) <= i)%Z ->
  py_index l i = Raise IndexError.
Proof.
  intros H. unfold py_index, index. cbv zeta.
  destruct (Z.leb_spec 0 i) as [H0 | H0].
  - rewrite lookup_ge_None_2 by lia. reflexivity.
  - destruct (Z.leb_spec (- Z.of_nat (length l)) i); [lia | reflexivity].
Qed.

Lemma py_index_inside {A : Type} (l : list A) (i : Z) :
  (- Z.of_nat (length l) <= i < Z.of_nat (length l))%Z ->
  exists a,
    l !! Z.to_nat (i mod Z.of_nat (length l)) = Some a /\ py_index l i = Ok a.
Proof.
  intros H. unfold py_index, index. cbv zeta.
  destruct (Z.leb_spec 0 i) as [H0 | H0].
  - rewrite Z.mod_small by lia.
    destruct (lookup_lt_is_Some_2 l (Z.to_nat i)) as [a Ha]; [lia |].
    exists a. now rewrite Ha.
  - destruct (Z.leb_spec (- Z.of_nat (length l)) i); [| lia].
    replace (i mod Z.of_nat (length l))%Z with (Z.of_nat (length l) + i)%Z.
    2:{ apply Z.mod_unique with (q := (-1)%Z); lia. }
    destruct (lookup_lt_is_Some_2 l (Z.to_nat (Z.of_nat (length l) + i)))
      as [a Ha]; [lia |].
    exists a. now rewrite Ha.
Qed.

Lemma get_attach_point_attach bspline_eval (tok : token)
  (prev_parts : list PartToken) (ix : Z) :
  category (rel tok) <> "unihist"%string ->
  attach_ix (rel tok) = Ok ix ->
  get_attach_point bspline_eval tok prev_parts
  = (prev <-- py_index prev_parts ix ;; attach_to bspline_eval tok prev).
Proof.
  intros Hc Hix. unfold get_attach_point, attach_to. cbv zeta.
  destruct (String.eqb_spec (category (rel tok)) "unihist");
    [congruence |].
  rewrite Hix. reflexivity.
Qed.

(** The claim C6 fails on the attach index.  With one previous part the
    new stroke is at position 1 and the index 5 is not earlier; yet the
    constructor returns the relation, a token of it is built, and only
    the use of the token fails, with an index error and not with an
    assertion. *)
Lemma attach_beyond_index_error :
  (Z.of_nat (length [one_part]) <= 5)%Z /\
  exists rel tok,
    RelationAttach "end" 5 small_lib = Ok rel /\
    RelationToken rel ∅ = Ok tok /\
    get_attach_point first_cpt tok [one_part] = Raise IndexError /\
    get_attach_point first_cpt tok [one_part] <> Raise AssertionError.
Proof.
  split; [cbn; lia |].
  eexists _, _. split; [reflexivity |]. split; [reflexivity |].
  split; [reflexivity | discriminate].
Qed.

(** A negative index counts from the end, as Python has it: the index -1
    names the last of the previous parts. *)
Example attach_negative_index :
  exists rel tok,
    RelationAttach "start" (-1) small_lib = Ok rel /\
    RelationToken rel ∅ = Ok tok /\
    get_attach_point first_cpt tok [one_part] = Ok (1, 2).
Proof. eexists _, _. split; [reflexivity |]. split; reflexivity. Qed.

(** C6, amended. A [RelationToken] with a combination of category and
    keyword arguments that is not valid fails its assertion, and so does
    an attach relation with a category other than start, end and mid.
    The attach index is not checked against the position of the stroke:
    the constructor takes every index, and the use of the relation reads
    the list of the [n] previous parts as Python does, with an index
    error outside [-n, n) and the part [ix mod n] within. *)
Theorem relation_contract_checks :
  (forall rel kwargs,
     RelationToken rel kwargs = Raise AssertionError <->
     if str_in (category rel) ["unihist"; "start"; "end"]%string
     then kwargs <> ∅
     else dom kwargs <> {[ "eval_spot_token"%string ]}) /\
  (forall category ix lib,
     (str_in category ["start"; "end"; "mid"]%string = false ->
      RelationAttach category ix lib = Raise AssertionError) /\
     (str_in category ["start"; "end"; "mid"]%string = true ->
      RelationAttach category ix lib
      = Ok (Attach category (sigma_x lib, sigma_y lib) ix))) /\
  (forall bspline_eval tok prev_parts ix,
     category (rel tok) <> "unihist"%string ->
     attach_ix (rel tok) = Ok ix ->
     let n := Z.of_nat (length prev_parts) in
     ((ix < - n \/ n <= ix)%Z ->
      get_attach_point bspline_eval tok prev_parts = Raise IndexError) /\
     ((- n <= ix < n)%Z ->
      exists prev,
        prev_parts !! Z.to_nat (ix mod n) = Some prev /\
        get_attach_point bspline_eval tok prev_parts
        = attach_to bspline_eval tok prev)).
Proof.
  split; [| split].
  - intros r kwargs. unfold RelationToken.
    destruct (str_in (category r) _).
    + destruct (bool_decide_reflect (kwargs = ∅)) as [-> | Hne];
        cbn [assert bind]; split; try congruence; try discriminate; auto.
    + destruct (bool_decide_reflect
                  (dom kwargs = ({[ "eval_spot_token"%string ]} : gset string)))
        as [He | Hne]; cbn [assert bind]; split; try congruence;
        try discriminate; auto.
  - intros c ix lib. unfold RelationAttach, Relation. split; intros Hc.
    + destruct (str_in c categories_allowed); cbn [assert bind];
        [| reflexivity].
      now rewrite Hc.
    + replace (str_in c categories_allowed) with true.
      2:{ symmetry. unfold str_in, categories_allowed in *. cbn [existsb] in *.
          rewrite Hc. apply orb_true_r. }
      cbn [assert bind]. now rewrite Hc.
  - intros beval tok prev_parts ix Hc Hix n. subst n.
    rewrite (get_attach_point_attach beval tok prev_parts ix Hc Hix). split.
    + intros Hout. now rewrite py_index_outside.
    + intros Hin. destruct (py_index_inside prev_parts ix Hin) as (a & Ha & ->).
      exists a. split; [exact Ha | reflexivity].
Qed.

(** ** The properties of the renderer and of the relations on examples *)


(** The first trajectory stays on the page and the second one leaves it:
    the flag is set and the image is the one of the first alone. *)
Example render_off_page :
  render_image sqrt_approx sub2ind_rm no_filter unit_kernel
    [[(1, -5 # 2)]; [(7, 7)]] 0 0 small_page
  = Ok ({| shape := (3, 3)%nat;
           data := [0; 0; 0; 0; 0; 0; 0; 16 # 16; 0] |}, true) /\
  render_image sqrt_approx sub2ind_rm no_filter unit_kernel
    [[(1, -5 # 2)]] 0 0 small_page
  = Ok ({| shape := (3, 3)%nat;
           data := [0; 0; 0; 0; 0; 0; 0; 16 # 16; 0] |}, false).
Proof. split; vm_compute; reflexivity. Qed.

Lemma render_image_blend_witness :
  exists ink flag pimg,
    ink_map sqrt_approx sub2ind_rm no_filter unit_kernel
      [[(1 # 2, -1 # 2); (3 # 2, -1 # 2)]] 0 small_page = Ok (ink, flag) /\
    render_image sqrt_approx sub2ind_rm no_filter unit_kernel
      [[(1 # 2, -1 # 2); (3 # 2, -1 # 2)]] (1 # 2) 0 small_page
      = Ok (pimg, flag) /\
    Forall (fun v => v == 1 # 2) (data pimg).
Proof.
  destruct (ink_map sqrt_approx sub2ind_rm no_filter unit_kernel
              [[(1 # 2, -1 # 2); (3 # 2, -1 # 2)]] 0 small_page)
    as [[ink flag] | e] eqn:Hink; [| vm_compute in Hink; discriminate].
  destruct (render_image_blend sqrt_approx sub2ind_rm no_filter unit_kernel
              [[(1 # 2, -1 # 2); (3 # 2, -1 # 2)]] (1 # 2) 0 small_page
              ink flag Hink) as (pimg & Hr & _ & _ & _ & _ & Hhalf).
  exists ink, flag, pimg. split; [reflexivity |]. split; [exact Hr |].
  apply Hhalf. reflexivity.
Defined.

(** With no noise the rendering is the ink map: a quarter of a unit on
    four pixels and half a unit on the two pixels that both points
    reach. *)
Example render_no_noise :
  exists pimg,
    render_image sqrt_approx sub2ind_rm no_filter unit_kernel
      [[(1 # 2, -1 # 2); (3 # 2, -1 # 2)]] 0 0 small_page
    = Ok (pimg, false) /\
    Forall2 Qeq (data pimg)
      [1 # 4; 1 # 2; 1 # 4; 1 # 4; 1 # 2; 1 # 4; 0; 0; 0].
Proof.
  eexists. split; [vm_compute; reflexivity |].
  repeat (constructor; [reflexivity |]). constructor.
Qed.

Lemma quad_log_prob_finite d x : exists q, quad_log_prob d x = Fin q.
Proof. eexists. reflexivity. Qed.

Lemma rough_log_not_pinf p : rough_log p <> PInf.
Proof.
  unfold rough_log. destruct (Qltb p 0); [discriminate |].
  destruct (Qle_bool p 0); discriminate.
Qed.

Lemma sample_token_within_bounds_witness :
  sample_token gen_s_bounds quad_log_prob ramp_cdf rough_log walk_in 10
    (AttachAlong "mid" (1, 1) 0 0 3 5 1) 0
  = Some (Ok {| rel := AttachAlong "mid" (1, 1) 0 0 3 5 1;
                eval_spot_token :=
                  Some (walk_in {| loc := 3; scale := 1 |} (0 + 2)) |},
          3%nat).
Proof.
  destruct (sample_token_within_bounds gen_s_bounds quad_log_prob ramp_cdf
              rough_log walk_in quad_log_prob_finite rough_log_not_pinf
              "mid" 0 0 3 small_lib (AttachAlong "mid" (1, 1) 0 0 3 5 1)
              eq_refl) as [_ Hfirst].
  apply (Hfirst 0%nat 2%nat).
  - intros [|[|j]] Hj; [right; reflexivity | right; reflexivity | lia].
  - split; discriminate.
  - lia.
Defined.

(** The draws 9 and 7 are rejected and the draw 5 is returned after three
    calls of the generator. *)
Example sample_token_walk_in :
  exists tok,
    sample_token gen_s_bounds quad_log_prob ramp_cdf rough_log walk_in 10
      (AttachAlong "mid" (1, 1) 0 0 3 5 1) 0 = Some (Ok tok, 3%nat) /\
    eval_spot_token tok = Some 5.
Proof. eexists. split; vm_compute; reflexivity. Qed.



(** A token without an eval-spot fails the assertion of [score_token];
    the bounds themselves are scored as points within the range. *)
Example score_token_cases :
  score_token gen_s_bounds quad_log_prob ramp_cdf rough_log
    (AttachAlong "mid" (1, 1) 0 0 3 5 1)
    {| rel := AttachAlong "mid" (1, 1) 0 0 3 5 1; eval_spot_token := None |}
  = Raise AssertionError /\
  (exists q,
     score_token gen_s_bounds quad_log_prob ramp_cdf rough_log
       (AttachAlong "mid" (1, 1) 0 0 3 5 1)
       {| rel := AttachAlong "mid" (1, 1) 0 0 3 5 1;
          eval_spot_token := Some 2 |} = Ok (Fin q)).
Proof. split; [reflexivity | eexists; vm_compute; reflexivity]. Qed.

Lemma relation_contract_checks_witness :
  get_attach_point first_cpt
    {| rel := Attach "end" (1, 1) 5; eval_spot_token := None |} [one_part]
  = Raise IndexError.
Proof.
  destruct relation_contract_checks as (_ & _ & Huse).
  destruct (Huse first_cpt
              {| rel := Attach "end" (1, 1) 5; eval_spot_token := None |}
              [one_part] 5%Z) as [Hout _];
    [discriminate | reflexivity |].
  apply Hout. right. cbn. lia.
Defined.

(** * Further properties *)

(** ** vanilla_to_motor: the rows of the loop *)

Lemma take_S_insert {A : Type} (l : list A) (k : nat) (x : A) :
  (k < length l)%nat -> take (S k) (<[k := x]> l) = take k l ++ [x].
Proof.
  intros Hk. rewrite (take_S_r _ _ x) by (now apply list_lookup_insert_eq).
  now rewrite take_insert_ge.
Qed.

Section MotorRows.

Variable get_stk : list vec2 -> nat -> list vec2.
Hypothesis get_stk_length : forall Y neval, length (get_stk Y neval) = neval.

Lemma motor_body_row shapes invscales neval motor motor_spline prev i sh s :
  (0 < neval)%nat -> shapes !! i = Some sh -> invscales !! i = Some s ->
  let traj := get_stk (map (vscale s) sh) neval in
  let offset := vsub (default (0, 0) (head traj)) prev in
  let row := map (fun p => vsub p offset) traj in
  motor_body get_stk shapes invscales neval (motor, motor_spline, prev) i
  = Ok (<[i := row]> motor,
        <[i := map (fun p => vsub p offset) (map (vscale s) sh)]> motor_spline,
        default (0, 0) (last row)).
Proof using get_stk_length.
  intros Hn Hsh Hsc traj offset row. unfold motor_body.
  rewrite (index_lookup _ _ _ Hsc), (index_lookup _ _ _ Hsh). cbn [bind].
  fold traj.
  assert (Hlen : length traj = neval) by apply get_stk_length.
  destruct traj as [|t0 traj'] eqn:Etraj; [simpl in Hlen; lia |].
  cbn [index lookup list_lookup bind].
  change (vsub t0 prev) with offset.
  change (map (fun p => vsub p offset) (t0 :: traj')) with row.
  assert (Hrow : length row = neval) by (unfold row; now rewrite length_map).
  unfold assign_row. rewrite Hrow, Nat.eqb_refl. cbn [bind].
  destruct (last row) as [q|] eqn:Hq.
  2:{ apply last_None in Hq. rewrite Hq in Hrow. simpl in Hrow. lia. }
  now rewrite (py_index_last _ _ Hq).
Qed.

Lemma motor_loop_rows shapes invscales neval m :
  forall k motor motor_spline prev,
    (0 < neval)%nat ->
    (k + m <= length shapes)%nat -> (k + m <= length invscales)%nat ->
    (k + m <= length motor)%nat -> (k + m <= length motor_spline)%nat ->
    let R := motor_rows get_stk neval
               (take m (drop k (zip shapes invscales))) prev in
    exists prev',
      for_each (motor_body get_stk shapes invscales neval) (seq k m)
        (motor, motor_spline, prev)
      = Ok (take k motor ++ map fst R ++ drop (k + m) motor,
            take k motor_spline ++ map snd R ++ drop (k + m) motor_spline,
            prev').
Proof using get_stk_length.
  induction m as [|m IH]; intros k motor motor_spline prev Hn Hsh Hsc Hm Hms R.
  - exists prev. subst R. simpl.
    now rewrite Nat.add_0_r, !take_drop.
  - destruct (lookup_lt_is_Some_2 shapes k) as [sh Hshk]; [lia |].
    destruct (lookup_lt_is_Some_2 invscales k) as [s Hsck]; [lia |].
    assert (Hz : zip shapes invscales !! k = Some (sh, s)).
    { rewrite lookup_zip_with, Hshk, Hsck. reflexivity. }
    subst R. rewrite (drop_S _ _ _ Hz). cbn [take motor_rows].
    set (traj := get_stk (map (vscale s) sh) neval).
    set (offset := vsub (default (0, 0) (head traj)) prev).
    set (row := map (fun p => vsub p offset) traj).
    set (msrow := map (fun p => vsub p offset) (map (vscale s) sh)).
    cbn [seq for_each].
    rewrite (motor_body_row shapes invscales neval motor motor_spline prev k
               sh s Hn Hshk Hsck).
    cbn [bind]. fold traj offset row msrow.
    destruct (IH (S k) (<[k := row]> motor) (<[k := msrow]> motor_spline)
                (default (0, 0) (last row)) Hn)
      as (prev' & Hloop); rewrite ?length_insert; try lia.
    exists prev'. rewrite Hloop. cbn [map fst snd].
    rewrite !take_S_insert, !drop_insert_lt by lia.
    replace (S k + m)%nat with (k + S m)%nat by lia.
    now rewrite <- !app_assoc.
Qed.

Lemma vanilla_to_motor_rows shapes invscales first_pos neval :
  (0 < neval)%nat -> (length shapes <= length invscales)%nat ->
  let R := motor_rows get_stk neval (zip shapes invscales) first_pos in
  vanilla_to_motor get_stk shapes invscales first_pos neval
  = Ok (map fst R, map snd R).
Proof using get_stk_length.
  intros Hn Hlen R. unfold vanilla_to_motor. cbv zeta.
  destruct (motor_loop_rows shapes invscales neval (length shapes) 0%nat
              (replicate (length shapes) (replicate neval (0, 0)))
              (map (map (fun _ => (0, 0))) shapes) first_pos Hn)
    as (prev' & Hloop); rewrite ?length_replicate, ?length_map; try lia.
  rewrite Hloop. cbn [bind fst snd take app]. rewrite drop_0.
  rewrite (take_ge (zip shapes invscales)) by (rewrite length_zip; lia).
  rewrite !drop_ge by (rewrite ?length_replicate, ?length_map; lia).
  now rewrite !app_nil_r.
Qed.

Lemma motor_rows_shapes neval (subs : list (list vec2 * Q)) :
  forall prev,
    Forall2 (fun sub r => length (fst r) = neval /\
                          length (snd r) = length (fst sub))
      subs (motor_rows get_stk neval subs prev).
Proof using get_stk_length.
  induction subs as [|[sh s] subs IH]; intros prev; cbn [motor_rows];
    constructor; [| apply IH].
  cbn [fst snd]. rewrite !length_map. split; [apply get_stk_length | reflexivity].
Qed.

(** X1. The shapes of the result: one trajectory of [neval] points per
    sub-stroke, and for every sub-stroke as many offset-corrected control
    points as it has control points. *)
Theorem vanilla_to_motor_shapes shapes invscales first_pos neval :
  (0 < neval)%nat -> (length shapes <= length invscales)%nat ->
  exists motor motor_spline,
    vanilla_to_motor get_stk shapes invscales first_pos neval
      = Ok (motor, motor_spline) /\
    length motor = length shapes /\
    Forall (fun row => length row = neval) motor /\
    Forall2 (fun sh cpts => length cpts = length sh) shapes motor_spline.
Proof using get_stk_length.
  intros Hn Hlen. eexists _, _.
  split; [now apply vanilla_to_motor_rows |].
  pose proof (motor_rows_shapes neval (zip shapes invscales) first_pos) as HR.
  set (R := motor_rows get_stk neval (zip shapes invscales) first_pos) in *.
  assert (HRlen : length R = length shapes).
  { rewrite <- (Forall2_length _ _ _ HR), length_zip. lia. }
  split; [now rewrite length_map |]. split.
  - apply Forall_fmap. eapply Forall2_Forall_r; [exact HR |].
    apply Forall_true. intros sub r [H _]. exact H.
  - rewrite <- (fst_zip shapes invscales Hlen) at 1.
    apply Forall2_fmap. eapply Forall2_impl; [exact HR |].
    intros sub r [_ H]. exact H.
Qed.





(** X4. With at least one sub-stroke, a request for no evaluation point
    or a list of inverse scales that is too short ends in an index
    error. *)
Theorem vanilla_to_motor_index_error shapes invscales first_pos neval :
  shapes <> [] ->
  neval = 0%nat \/ (length invscales < length shapes)%nat ->
  vanilla_to_motor get_stk shapes invscales first_pos neval
  = Raise IndexError.
Proof using get_stk_length.
  intros Hne Hbad. unfold vanilla_to_motor. cbv zeta.
  destruct (Nat.eq_dec neval 0%nat) as [-> | Hn].
  - destruct shapes as [|sh shapes]; [congruence |].
    cbn [length seq for_each]. unfold motor_body.
    destruct invscales as [|s invscales]; [reflexivity |].
    cbn [index lookup list_lookup bind].
    pose proof (get_stk_length (map (vscale s) sh) 0%nat) as H0.
    destruct (get_stk (map (vscale s) sh) 0%nat); [reflexivity | discriminate].
  - destruct Hbad as [? | Hshort]; [congruence |].
    assert (Hseq : seq 0 (length shapes)
                   = seq 0 (length invscales)
                     ++ seq (length invscales)
                          (S (length shapes - S (length invscales)))).
    { change (length invscales) with (0 + length invscales)%nat at 2.
      rewrite <- seq_app. f_equal. lia. }
    rewrite Hseq, for_each_app.
    destruct (motor_loop_rows shapes invscales neval (length invscales) 0%nat
                (replicate (length shapes) (replicate neval (0, 0)))
                (map (map (fun _ => (0, 0))) shapes) first_pos)
      as (prev' & Hloop); rewrite ?length_replicate, ?length_map; try lia.
    rewrite Hloop. cbn [bind seq for_each]. unfold motor_body.
    unfold index at 1. rewrite lookup_ge_None_2 by lia. reflexivity.
Qed.

End MotorRows.

(** ** The page as a box *)

Lemma floor_nonneg (x : Q) : (0 <= Qfloor x)%Z <-> 0 <= x.
Proof.
  split; intros H.
  - eapply Qle_trans; [| apply Qfloor_le].
    change 0 with (inject_Z 0). now rewrite <- Zle_Qle.
  - change 0%Z with (Qfloor 0). now apply Qfloor_resp_le.
Qed.

Lemma ceiling_le (x : Q) (m : Z) : (Qceiling x <= m)%Z <-> x <= inject_Z m.
Proof.
  split; intros H.
  - eapply Qle_trans; [apply Qle_ceiling |]. now rewrite <- Zle_Qle.
  - rewrite <- (Qceiling_Z m). now apply Qceiling_resp_le.
Qed.

Lemma in_bounds_box imsize (p : vec2) :
  out_of_bounds imsize p = false <->
  (0 <= fst p <= inject_Z (fst imsize)) /\
  (0 <= snd p <= inject_Z (snd imsize)).
Proof.
  rewrite <- not_true_iff_false, out_of_bounds_spec. unfold off_page.
  rewrite <- !floor_nonneg, <- !ceiling_le. lia.
Qed.

Lemma check_bounds_lookup_in (myt : list vec2) (imsize : Z * Z) (i : nat) :
  check_bounds myt imsize !! i = Some false <->
  exists p, myt !! i = Some p /\
            (0 <= fst p <= inject_Z (fst imsize)) /\
            (0 <= snd p <= inject_Z (snd imsize)).
Proof.
  rewrite check_bounds_map, list_lookup_fmap. split.
  - destruct (myt !! i) as [p|]; cbn; [| discriminate].
    intros [= H]. exists p. split; [reflexivity |]. now apply in_bounds_box.
  - intros (p & -> & H). cbn. f_equal. now apply in_bounds_box.
Qed.

(** X5. [check_bounds] marks a point as in bounds exactly when it lies in
    the closed box from 0 to the image dimension on both axes; the
    result has one flag per point. *)
Theorem check_bounds_closed_box (myt : list vec2) (imsize : Z * Z) :
  length (check_bounds myt imsize) = length myt /\
  forall i,
    check_bounds myt imsize !! i = Some false <->
    exists p, myt !! i = Some p /\
              (0 <= fst p <= inject_Z (fst imsize)) /\
              (0 <= snd p <= inject_Z (snd imsize)).
Proof.
  split; [rewrite check_bounds_map; apply length_map |].
  intros i. apply check_bounds_lookup_in.
Qed.

(** X6. In the space of the motor program the page is the box from 0 to
    the width on the first axis and from minus the height to 0 on the
    second: these are the points that [render_image] keeps, after
    [space_motor_to_img]. *)
Theorem motor_space_page (pt : list vec2) (imsize : Z * Z) :
  length (space_motor_to_img pt) = length pt /\
  forall i,
    check_bounds (space_motor_to_img pt) imsize !! i = Some false <->
    exists p, pt !! i = Some p /\
              (0 <= fst p <= inject_Z (snd imsize)) /\
              (- inject_Z (fst imsize) <= snd p <= 0).
Proof.
  split; [apply length_map |]. intros i.
  rewrite check_bounds_lookup_in. unfold space_motor_to_img. rewrite list_lookup_fmap. split.
  - intros (q & Hq & [Hx1 Hx2] & [Hy1 Hy2]).
    destruct (pt !! i) as [p|]; cbn in Hq; [| discriminate].
    injection Hq as <-. cbn [fst snd] in *. exists p.
    split; [reflexivity |]. repeat split; lra.
  - intros (p & -> & [Hx1 Hx2] & [Hy1 Hy2]). cbn. eexists.
    split; [reflexivity |]. cbn [fst snd]. repeat split; lra.
Qed.

(** ** Ink before and after the renormalization *)

Lemma Qltb_proper (a b c d : Q) : a == b -> c == d -> Qltb a c = Qltb b d.
Proof.
  intros Hab Hcd. destruct (Qltb b d) eqn:H.
  - apply Qltb_lt. apply Qltb_lt in H. now rewrite Hab, Hcd.
  - apply Qltb_ge. apply Qltb_ge in H. now rewrite Hab, Hcd.
Qed.





Section InkBounds.

Variable sqrt : Q -> Q.



End InkBounds.

(** ** seqadd: edge cases and composition *)

Section SeqaddMore.

Variable sub2ind : nat * nat -> Z -> Z -> Z.

(** X10. [seqadd] fails its assertion when the three tensors differ in
    length, and gives the image back as it is when no adding point lies
    on the image, in particular when there is none. *)
Theorem seqadd_edge_cases (D : image) :
  (forall lind_x lind_y inkval,
     length lind_x <> length lind_y \/ length lind_y <> length inkval ->
     seqadd sub2ind D lind_x lind_y inkval = Raise AssertionError) /\
  (forall T : list adding_point,
     Forall (fun t => keptb (shape D) t = false) T ->
     seqadd sub2ind D (xs T) (ys T) (vs T) = Ok D).
Proof.
  split.
  - intros lx ly lv Hlen. unfold seqadd.
    replace ((length lx =? length ly)%nat && (length ly =? length lv)%nat)
      with false; [reflexivity |].
    symmetry. apply andb_false_iff.
    destruct Hlen as [H | H]; [left | right]; now apply Nat.eqb_neq.
  - intros T Hout. rewrite seqadd_triples.
    replace (List.filter (keptb (shape D)) T) with (@nil adding_point);
      [reflexivity |].
    symmetry. induction Hout as [|t T Ht _ IH]; [reflexivity |].
    cbn [List.filter]. now rewrite Ht.
Qed.

Hypothesis sub2ind_range : forall (sh : nat * nat) (r c : Z),
  (0 <= r < Z.of_nat (fst sh))%Z -> (0 <= c < Z.of_nat (snd sh))%Z ->
  (0 <= sub2ind sh r c < Z.of_nat (fst sh * snd sh))%Z.


End SeqaddMore.

(** ** The ink that a trajectory inside the page brings to the grid *)








Section Conservation.

Variable sqrt : Q -> Q.
Variable sub2ind : nat * nat -> Z -> Z -> Z.
Hypothesis sub2ind_range : forall (sh : nat * nat) (r c : Z),
  (0 <= r < Z.of_nat (fst sh))%Z -> (0 <= c < Z.of_nat (snd sh))%Z ->
  (0 <= sub2ind sh r c < Z.of_nat (fst sh * snd sh))%Z.


End Conservation.

(** ** render_image: the range of the output *)



Section RenderMore.

Variable sqrt : Q -> Q.
Variable sub2ind : nat * nat -> Z -> Z -> Z.
Variable imfilter : image -> list (list Q) -> image.
Variable fspecial : nat -> Q -> list (list Q).



End RenderMore.

(** ** apply_render without a warp *)

Section ApplyRenderProperties.

Variable sqrt : Q -> Q.
Variable sub2ind : nat * nat -> Z -> Z -> Z.
Variable imfilter : image -> list (list Q) -> image.
Variable fspecial : nat -> Q -> list (list Q).
Hypothesis sub2ind_range : forall (sh : nat * nat) (r c : Z),
  (0 <= r < Z.of_nat (fst sh))%Z -> (0 <= c < Z.of_nat (snd sh))%Z ->
  (0 <= sub2ind sh r c < Z.of_nat (fst sh * snd sh))%Z.


End ApplyRenderProperties.

(** ** Relations: constructors, tokens and locations *)

Lemma str_in_allowed_unihist (c : string) :
  String.eqb c "unihist" = true -> str_in c categories_allowed = true.
Proof. intros H. unfold str_in, categories_allowed. cbn [existsb]. now rewrite H. Qed.

Lemma RelationIndependent_unihist category gpos imsize lib rel :
  RelationIndependent category gpos imsize lib = Ok rel ->
  category = "unihist"%string /\
  rel = Independent "unihist" (sigma_x lib, sigma_y lib) gpos imsize.
Proof.
  unfold RelationIndependent, Relation.
  destruct (str_in category categories_allowed); cbn [assert bind];
    [| discriminate].
  destruct (String.eqb_spec category "unihist") as [-> | Hne];
    cbn [assert bind]; [| discriminate].
  intros [= <-]. split; reflexivity.
Qed.

(** X18. A relation class accepts one kind of category only: the
    constructor of the independent relation returns for 'unihist' and
    fails its assertion for every other string, the constructor of the
    attach-along relation returns for 'mid' and fails its assertion for
    every other string. *)
Theorem relation_constructor_categories (category : string) (lib : Library) :
  (forall gpos imsize,
     RelationIndependent category gpos imsize lib
     = if String.eqb category "unihist"
       then Ok (Independent category (sigma_x lib, sigma_y lib) gpos imsize)
       else Raise AssertionError) /\
  (forall attach_ix attach_subix eval_spot,
     RelationAttachAlong category attach_ix attach_subix eval_spot lib
     = if String.eqb category "mid"
       then Ok (AttachAlong category (sigma_x lib, sigma_y lib) attach_ix
                  attach_subix eval_spot (lib_ncpt lib) (lib_sigma_attach lib))
       else Raise AssertionError).
Proof.
  split.
  - intros gpos imsize. unfold RelationIndependent, Relation.
    destruct (String.eqb category "unihist") eqn:Hc.
    + now rewrite (str_in_allowed_unihist _ Hc).
    + destruct (str_in category categories_allowed); reflexivity.
  - intros ix subix eval_spot.
    unfold RelationAttachAlong, RelationAttach, Relation.
    destruct (String.eqb_spec category "mid") as [-> | Hc]; [reflexivity |].
    destruct (str_in category categories_allowed); cbn [assert bind];
      [| reflexivity].
    destruct (str_in category _); reflexivity.
Qed.

Section RelationMore.

Variable bspline_gen_s : nat -> nat -> list Q * Q * Q.
Variable bspline_eval : Q -> list vec2 -> result vec2.
Variable log_prob : Normal -> Q -> xnum.
Variable cdf : Normal -> Q -> Q.
Variable log : Q -> xnum.
Variable sample : Normal -> nat -> Q.
Variable mvn_log_prob : Q * Q -> vec2 -> xnum.

Local Abbreviation lb := (lower_bound bspline_gen_s).
Local Abbreviation ub := (upper_bound bspline_gen_s).
Local Abbreviation score := (score_eval_spot_token bspline_gen_s log_prob cdf log).
Local Abbreviation draw := (sample_eval_spot_token bspline_gen_s log_prob cdf log
                              sample).
Local Abbreviation sample_tok := (sample_token bspline_gen_s log_prob cdf log
                                    sample).
Local Abbreviation score_tok := (score_token bspline_gen_s log_prob cdf log).

(** X16. An independent relation needs no previous part: its token is
    sampled without a draw and carries no eval-spot, its score is 0, its
    attach point is the stored position whatever the previous parts, and
    the sampled location is that position plus the noise. *)
Theorem independent_relation_attach category gpos imsize lib rel :
  RelationIndependent category gpos imsize lib = Ok rel ->
  let tok := {| rel := rel; eval_spot_token := None |} in
  (forall fuel n, sample_tok fuel rel n = Some (Ok tok, n)) /\
  score_tok rel tok = Ok (Fin 0) /\
  (forall prev_parts,
     get_attach_point bspline_eval tok prev_parts = Ok gpos) /\
  (forall prev_parts noise,
     sample_location bspline_eval tok prev_parts noise
     = Ok (vadd gpos noise)).
Proof.
  intros Hrel.
  apply RelationIndependent_unihist in Hrel as [-> ->].
  cbv zeta. repeat split; reflexivity.
Qed.

(** X19. An attach relation of category 'start' or 'end' samples a
    token without a draw and without an eval-spot; one of category 'mid'
    built by [RelationAttach] itself can be built, but sampling its token
    fails the assertion of [RelationToken].  Every token scores 0 under
    such a relation. *)
Theorem plain_attach_tokens (c : string) (ix : Z) lib (r : relation) :
  RelationAttach c ix lib = Ok r ->
  (forall fuel n,
     sample_tok fuel r n
     = Some (if String.eqb c "mid" then Raise AssertionError
             else Ok {| rel := r; eval_spot_token := None |}, n)) /\
  (forall tok, score_tok r tok = Ok (Fin 0)).
Proof.
  unfold RelationAttach, Relation.
  destruct (str_in c categories_allowed); cbn [assert bind];
    [| discriminate].
  destruct (str_in c ["start"; "end"; "mid"]%string) eqn:Hc;
    cbn [assert bind]; [| discriminate].
  intros [= <-]. split; [| reflexivity].
  intros fuel n. cbn [sample_token]. f_equal. f_equal.
  unfold RelationToken. cbn [category].
  unfold str_in in *. cbn [existsb] in *.
  destruct (String.eqb_spec c "mid") as [-> | Hmid]; [reflexivity |].
  destruct (String.eqb c "unihist"), (String.eqb c "start"),
    (String.eqb c "end"); cbn [orb] in *; try reflexivity.
  discriminate.
Qed.

Lemma draw_trace fuel d ncpt :
  forall n tok n',
    draw fuel d ncpt n = Some (tok, n') ->
    (n < n')%nat /\ tok = sample d (n' - 1)%nat /\
    is_neg_inf (score tok d ncpt) = false /\
    forall j, (n <= j < n' - 1)%nat -> score (sample d j) d ncpt = NInf.
Proof.
  induction fuel as [|fuel IH]; intros n tok n'; cbn [sample_eval_spot_token];
    [discriminate |].
  destruct (is_neg_inf (score (sample d n) d ncpt)) eqn:Hll.
  - intros Hd. destruct (IH _ _ _ Hd) as (Hlt & Htok & Hs & Hrej).
    split; [lia |]. split; [exact Htok |]. split; [exact Hs |].
    intros j Hj. destruct (Nat.eq_dec j n) as [-> | Hne].
    + destruct (score (sample d n) d ncpt); try discriminate. reflexivity.
    + apply Hrej. lia.
  - intros [= <- <-]. split; [lia |].
    replace (S n - 1)%nat with n by lia.
    split; [reflexivity |]. split; [exact Hll |]. intros j Hj. lia.
Qed.

(** X20. For a 'mid' relation, a token that [sample_token] returns is
    never scored minus infinity by [score_token]; it carries the last
    draw taken from the generator, and every draw before it was scored
    minus infinity. *)
Theorem sampled_token_scores category attach_ix attach_subix eval_spot lib rel
  fuel n r n' :
  RelationAttachAlong category attach_ix attach_subix eval_spot lib = Ok rel ->
  sample_tok fuel rel n = Some (r, n') ->
  let d := eval_spot_dist rel in
  exists tok ll,
    r = Ok tok /\ score_tok rel tok = Ok ll /\ is_neg_inf ll = false /\
    (n < n')%nat /\
    eval_spot_token tok = Some (sample d (n' - 1)%nat) /\
    forall j, (n <= j < n' - 1)%nat ->
      score (sample d j) d (ncpt_of rel) = NInf.
Proof.
  intros Hrel. apply RelationAttachAlong_mid in Hrel as [-> ->].
  cbn [sample_token eval_spot_dist ncpt_of].
  destruct (draw fuel _ (lib_ncpt lib) n) as [[v n1] |] eqn:Hd;
    [| discriminate].
  intros [= <- <-].
  destruct (draw_trace _ _ _ _ _ _ Hd) as (Hlt & Hv & Hs & Hrej).
  rewrite RelationToken_mid by reflexivity.
  eexists _, _. split; [reflexivity |]. cbn [score_token eval_spot_token].
  split; [reflexivity |]. split; [exact Hs |]. split; [exact Hlt |].
  split; [now rewrite Hv | exact Hrej].
Qed.

(** X21. The rejection loop has no way out when no draw is accepted:
    if every draw from the [n]-th on lies outside the bounds, and so for
    every generator when the upper bound is below the lower bound,
    [sample_token] does not return, however many draws it may take. *)
Theorem sample_token_spins category attach_ix attach_subix eval_spot lib rel
  (n : nat) :
  RelationAttachAlong category attach_ix attach_subix eval_spot lib = Ok rel ->
  let d := eval_spot_dist rel in
  let ncpt := ncpt_of rel in
  (ub ncpt < lb ncpt \/
   forall j, (n <= j)%nat -> sample d j < lb ncpt \/ ub ncpt < sample d j) ->
  forall fuel, sample_tok fuel rel n = None.
Proof.
  intros Hrel. apply RelationAttachAlong_mid in Hrel as [-> ->].
  cbn [eval_spot_dist ncpt_of sample_token]. intros Hout fuel.
  set (d := {| loc := eval_spot; scale := lib_sigma_attach lib |}).
  assert (Hrej : forall j, (n <= j)%nat ->
            score (sample d j) d (lib_ncpt lib) = NInf).
  { intros j Hj. apply score_outside. destruct Hout as [Hub | Hall];
      [| now apply Hall].
    destruct (Qlt_le_dec (sample d j) (lb (lib_ncpt lib))); [now left |].
    right. eapply Qlt_le_trans; eassumption. }
  assert (Hnone : forall fuel m, (n <= m)%nat ->
            draw fuel d (lib_ncpt lib) m = None).
  { clear fuel. induction fuel as [|fuel IH]; intros m Hm;
      cbn [sample_eval_spot_token]; [reflexivity |].
    rewrite (Hrej m Hm). cbn [is_neg_inf]. apply IH. lia. }
  now rewrite Hnone.
Qed.

(** X22. The parameters to optimize of a sampled token of a 'mid'
    relation are its one eval-spot with the two bounds for [ncpt], and
    the eval-spot lies between them; the relation itself offers its
    nominal eval-spot with the same two bounds. *)
Theorem sampled_token_parameters category attach_ix attach_subix eval_spot lib
  rel fuel n tok n' :
  RelationAttachAlong category attach_ix attach_subix eval_spot lib = Ok rel ->
  sample_tok fuel rel n = Some (Ok tok, n') ->
  let ncpt := lib_ncpt lib in
  exists v,
    RelationToken_optimizable_parameters bspline_gen_s tok
      = Ok ([v], [lb ncpt], [ub ncpt]) /\
    lb ncpt <= v <= ub ncpt /\
    Relation_optimizable_parameters bspline_gen_s rel
      = ([PScalar eval_spot], [PScalar (lb ncpt)], [PScalar (ub ncpt)]).
Proof.
  intros Hrel. apply RelationAttachAlong_mid in Hrel as [-> ->].
  cbn [sample_token].
  destruct (draw fuel _ (lib_ncpt lib) n) as [[v n1] |] eqn:Hd;
    [| discriminate].
  rewrite RelationToken_mid by reflexivity. intros [= <- <-].
  exists v. unfold RelationToken_optimizable_parameters,
    Relation_optimizable_parameters, lower_bound, upper_bound.
  cbn [rel category eval_spot_token].
  pose proof (draw_within bspline_gen_s log_prob cdf log sample _ _ _ _ _ _ Hd)
    as Hin.
  unfold lower_bound, upper_bound in Hin.
  destruct (bspline_gen_s (lib_ncpt lib) 1) as [[s0 l] u]. cbn [fst snd] in *.
  repeat split; try reflexivity; apply Hin.
Qed.

(** X23. The bounds that an independent relation offers for its position
    are the page in the space of the motor program: the position lies
    between them on both axes exactly when [check_bounds] finds its
    image-space point in bounds. *)
Theorem independent_bounds_are_page category loc_Cov gpos (imsize : nat * nat) :
  let lo := (0, - inject_Z (Z.of_nat (fst imsize))) in
  let hi := (inject_Z (Z.of_nat (snd imsize)), 0) in
  Relation_optimizable_parameters bspline_gen_s
    (Independent category loc_Cov gpos imsize)
  = ([PPoint gpos], [PPoint lo], [PPoint hi]) /\
  ((fst lo <= fst gpos <= fst hi /\ snd lo <= snd gpos <= snd hi) <->
   check_bounds (space_motor_to_img [gpos])
     (Z.of_nat (fst imsize), Z.of_nat (snd imsize)) = [false]).
Proof.
  intros lo hi. split; [reflexivity |].
  rewrite check_bounds_map. cbn [space_motor_to_img map].
  split.
  - intros [[Hx0 Hx1] [Hy0 Hy1]]. f_equal. apply in_bounds_box.
    subst lo hi. cbn [fst snd] in *. repeat split; lra.
  - intros [= H]. apply in_bounds_box in H as [[Hx0 Hx1] [Hy0 Hy1]].
    subst lo hi. cbn [fst snd] in *. repeat split; lra.
Qed.


End RelationMore.

(** ** A 'start' relation on a part made by vanilla_to_motor *)

Section AttachToMotor.

Variable fl : Q -> Q.
Variable u : Q.
Hypothesis fl_error : forall x, Qabs (fl x - x) <= u * Qabs x.
Hypothesis fl_proper : forall x y, x == y -> fl x == fl y.
Variable get_stk : list vec2 -> nat -> list vec2.
Hypothesis get_stk_length : forall Y neval, length (get_stk Y neval) = neval.
Variable bspline_eval : Q -> list vec2 -> result vec2.

(** X17. A stroke that a 'start' relation attaches to a previous part
    whose float32 trajectories come from [vanilla_to_motor] is attached
    at the first point of the first trajectory of that part: the
    repositioned start of the spline, which lies within the rounding of
    two subtractions of the starting position that the part was given,
    and is that position when the offset is computed without error. *)
Theorem start_relation_finds_first_pos shapes invscales first_pos neval
  motor_ motor_spline_ (ix : Z) lib (r : relation)
  (prev_parts : list PartToken) :
  shapes <> [] -> (0 < neval)%nat ->
  (length shapes <= length invscales)%nat ->
  F32.vanilla_to_motor fl get_stk shapes invscales first_pos neval
    = Ok (motor_, motor_spline_) ->
  RelationAttach "start" ix lib = Ok r ->
  prior ix prev_parts ->
  prev_parts !! Z.to_nat ix
    = Some {| motor := motor_; motor_spline := motor_spline_ |} ->
  exists t0 loc,
    spline_start fl get_stk shapes invscales neval 0 = Some t0 /\
    get_attach_point bspline_eval {| rel := r; eval_spot_token := None |}
      prev_parts = Ok loc /\
    loc = repositioned fl t0 first_pos /\
    near u t0 first_pos loc /\
    (exact_offset fl t0 first_pos -> loc =v= first_pos).
Proof using get_stk_length fl_error fl_proper.
  intros Hne Hn Hlen Hv Hrel [Hix0 Hix1] Hpart.
  destruct (vanilla_to_motor_linked fl u fl_error fl_proper get_stk
              get_stk_length shapes invscales first_pos neval Hlen Hn)
    as (motor' & ms' & Hv' & Hlm & Hch).
  rewrite Hv in Hv'. injection Hv' as <- <-.
  destruct motor_ as [|row rows].
  { destruct shapes; [congruence | discriminate]. }
  destruct (linked_first _ _ _ _ _ Hch eq_refl)
    as (p & Hp & t0 & Ht0 & Hrep & Hnear & Hex).
  exists t0, p. split; [exact Ht0 |]. split; [| auto].
  injection Hrel as <-.
  unfold get_attach_point. cbn [rel category attach_ix String.eqb Ascii.eqb
    Bool.eqb bind].
  unfold py_index at 1.
  replace (0 <=? ix)%Z with true by (symmetry; now apply Z.leb_le).
  rewrite (index_lookup _ _ _ Hpart). cbn [bind motor].
  destruct row as [|p0 row]; [discriminate |].
  injection Hp as ->. reflexivity.
Qed.

End AttachToMotor.

(** ** The further properties on examples *)

Lemma vanilla_to_motor_shapes_witness :
  exists motor motor_spline,
    vanilla_to_motor line_stk [[(0, 0); (1, 1)]; [(5, 5); (2, 0)]] [1; 2]
      (3, 4) 3 = Ok (motor, motor_spline) /\
    length motor = 2%nat /\
    Forall (fun row => length row = 3%nat) motor /\
    Forall2 (fun sh cpts => length cpts = length sh)
      [[(0, 0); (1, 1)]; [(5, 5); (2, 0)]] motor_spline.
Proof.
  apply (vanilla_to_motor_shapes line_stk line_stk_length
           [[(0, 0); (1, 1)]; [(5, 5); (2, 0)]] [1; 2] (3, 4) 3);
    cbn; lia.
Defined.




Lemma vanilla_to_motor_index_error_witness :
  vanilla_to_motor line_stk [[(0, 0); (1, 1)]; [(5, 5); (2, 0)]] [1] (3, 4) 3
  = Raise IndexError.
Proof.
  apply (vanilla_to_motor_index_error line_stk line_stk_length);
    [discriminate | right; cbn; lia].
Defined.




Lemma seqadd_edge_cases_witness :
  seqadd sub2ind_rm (zeros (2, 2)%nat) [0; 1] [0] [1; 1]
    = Raise AssertionError /\
  seqadd sub2ind_rm (zeros (2, 2)%nat) (xs [(5, 5, 7); (-1, 0, 1)])
    (ys [(5, 5, 7); (-1, 0, 1)]) (vs [(5, 5, 7); (-1, 0, 1)])
    = Ok (zeros (2, 2)%nat).
Proof.
  destruct (seqadd_edge_cases sub2ind_rm (zeros (2, 2)%nat)) as [Hlen Hout].
  split.
  - apply Hlen. left. cbn. lia.
  - apply Hout. repeat constructor.
Defined.





Lemma independent_relation_attach_witness :
  get_attach_point first_cpt
    {| rel := Independent "unihist" (1, 1) (3, -4) (9, 9)%nat;
       eval_spot_token := None |} [] = Ok (3, -4).
Proof.
  destruct (independent_relation_attach gen_s_bounds first_cpt quad_log_prob
              ramp_cdf rough_log walk_in "unihist" (3, -4) (9, 9)%nat
              small_lib _ eq_refl) as (_ & _ & Hat & _).
  apply Hat.
Defined.

Lemma plain_attach_tokens_witness :
  sample_token gen_s_bounds quad_log_prob ramp_cdf rough_log walk_in 10
    (Attach "mid" (1, 1) 0) 0 = Some (Raise AssertionError, 0%nat).
Proof.
  destruct (plain_attach_tokens gen_s_bounds quad_log_prob ramp_cdf rough_log
              walk_in "mid" 0 small_lib _ eq_refl) as [Hs _].
  apply Hs.
Defined.

Lemma sampled_token_scores_witness :
  exists tok ll,
    score_token gen_s_bounds quad_log_prob ramp_cdf rough_log
      (AttachAlong "mid" (1, 1) 0 0 3 5 1) tok = Ok ll /\
    is_neg_inf ll = false /\
    eval_spot_token tok = Some (walk_in {| loc := 3; scale := 1 |} 2).
Proof.
  destruct (sample_token gen_s_bounds quad_log_prob ramp_cdf rough_log walk_in
              10 (AttachAlong "mid" (1, 1) 0 0 3 5 1) 0)
    as [[r n'] |] eqn:Hs; [| vm_compute in Hs; discriminate].
  assert (Hn : n' = 3%nat) by (vm_compute in Hs; congruence).
  destruct (sampled_token_scores gen_s_bounds quad_log_prob ramp_cdf rough_log
              walk_in "mid" 0 0 3 small_lib _ 10 0 r n' eq_refl Hs)
    as (tok & ll & _ & Hll & Hfin & _ & Htok & _).
  exists tok, ll. rewrite Hn in Htok. auto.
Defined.

Lemma sample_token_spins_witness :
  sample_token gen_s_bounds quad_log_prob ramp_cdf rough_log walk_in 100
    (AttachAlong "mid" (1, 1) 0 0 3 0 1) 0 = None.
Proof.
  apply (sample_token_spins gen_s_bounds quad_log_prob ramp_cdf rough_log
           walk_in "mid" 0 0 3
           {| sigma_x := 1; sigma_y := 1; lib_ncpt := 0;
              lib_sigma_attach := 1 |} _ 0 eq_refl).
  left. reflexivity.
Defined.

Lemma sampled_token_parameters_witness :
  exists tok v,
    sample_token gen_s_bounds quad_log_prob ramp_cdf rough_log walk_in 10
      (AttachAlong "mid" (1, 1) 0 0 3 5 1) 0 = Some (Ok tok, 3%nat) /\
    RelationToken_optimizable_parameters gen_s_bounds tok
      = Ok ([v], [lower_bound gen_s_bounds 5], [upper_bound gen_s_bounds 5]) /\
    lower_bound gen_s_bounds 5 <= v <= upper_bound gen_s_bounds 5.
Proof.
  eexists. 
  assert (Hs : sample_token gen_s_bounds quad_log_prob ramp_cdf rough_log
                 walk_in 10 (AttachAlong "mid" (1, 1) 0 0 3 5 1) 0
               = Some (Ok {| rel := AttachAlong "mid" (1, 1) 0 0 3 5 1;
                             eval_spot_token := Some 5 |}, 3%nat))
    by (vm_compute; reflexivity).
  destruct (sampled_token_parameters gen_s_bounds quad_log_prob ramp_cdf
              rough_log walk_in "mid" 0 0 3 small_lib _ 10 0 _ 3 eq_refl Hs)
    as (v & Hp & Hin & _).
  exists v. split; [exact Hs |]. split; [exact Hp | exact Hin].
Defined.

Lemma start_relation_finds_first_pos_witness :
  exists motor_ motor_spline_ t0 loc,
    F32.vanilla_to_motor F32.round line_stk
      [[(0, 0); (1, 1)]; [(5, 5); (2, 0)]] [1; 2] (3, 4) 3
      = Ok (motor_, motor_spline_) /\
    spline_start F32.round line_stk [[(0, 0); (1, 1)]; [(5, 5); (2, 0)]]
      [1; 2] 3 0 = Some t0 /\
    get_attach_point first_cpt
      {| rel := Attach "start" (1, 1) 0; eval_spot_token := None |}
      [{| motor := motor_; motor_spline := motor_spline_ |}]
    = Ok loc /\
    loc = repositioned F32.round t0 (3, 4) /\
    near u32 t0 (3, 4) loc /\
    (exact_offset F32.round t0 (3, 4) -> loc =v= (3, 4)).
Proof.
  destruct (F32.vanilla_to_motor F32.round line_stk
              [[(0, 0); (1, 1)]; [(5, 5); (2, 0)]] [1; 2] (3, 4) 3)
    as [[motor_ motor_spline_] | e] eqn:Hv; [| vm_compute in Hv; discriminate].
  exists motor_, motor_spline_.
  destruct (start_relation_finds_first_pos F32.round u32 round_error
              round_proper line_stk line_stk_length first_cpt
              [[(0, 0); (1, 1)]; [(5, 5); (2, 0)]] [1; 2] (3, 4) 3
              motor_ motor_spline_ 0 small_lib (Attach "start" (1, 1) 0)
              [{| motor := motor_; motor_spline := motor_spline_ |}])
    as (t0 & loc & H);
    [discriminate | lia | cbn; lia | exact Hv | reflexivity
    | split; cbn; lia | reflexivity |].
  exists t0, loc. split; [reflexivity | exact H].
Defined.
